(** * HDL generator: the request/response service and the component driving it

    A shallow embedding of [src/services/hdl-generator.service.ts]
    ([HdlGeneratorService.generateHdl], [buildPrompt]) and of
    [src/app.component.ts] ([AppComponent.generate], [toggleDeliverable],
    [startLoading], [stopLoading]), together with the parts of the JavaScript
    run time they rely on: strings, truthiness, ordinary objects and their key
    order, [String.prototype.trim], [JSON.parse], promises settling and
    [setInterval] tasks. *)

From Stdlib Require Import ZArith NArith List Ascii String Bool Lia.
From stdpp Require Import base option list.

Set Warnings "-register-all".

(** ** JavaScript strings

    A JavaScript string is a finite sequence of UTF-16 code units; a code unit
    is kept as its number.  Source literals are ASCII and are written with
    [lit]. *)

Abbreviation jsstring := (list N).

Definition ch (a : ascii) : N := N_of_ascii a.

Definition lit (s : string) : jsstring :=
  map N_of_ascii (list_ascii_of_string s).

(** The double quote, which a literal of this file cannot hold. *)
Definition dquote : N := 34%N.

(** End of line inside a template literal. *)
Definition LF : N := 10%N.

(** [WhiteSpace] and [LineTerminator] code points of ECMAScript, the ones
    [String.prototype.trim] removes: TAB, LF, VT, FF, CR, SP, NBSP, U+1680,
    U+2000..U+200A, LS, PS, U+202F, U+205F, U+3000 and the BOM. *)
Definition is_white_space (c : N) : bool :=
  ((9 <=? c) && (c <=? 13) || (c =? 32) || (c =? 160) || (c =? 5760)
   || (8192 <=? c) && (c <=? 8202) || (c =? 8232) || (c =? 8233)
   || (c =? 8239) || (c =? 8287) || (c =? 12288) || (c =? 65279))%N.

Fixpoint trimStart (s : jsstring) : jsstring :=
  match s with
  | c :: r => if is_white_space c then trimStart r else s
  | [] => []
  end.

(** [s.trim()] *)
Definition trim (s : jsstring) : jsstring :=
  rev (trimStart (rev (trimStart s))).

(** [parts.join(sep)] on an array of strings. *)
Fixpoint join (sep : jsstring) (parts : list jsstring) : jsstring :=
  match parts with
  | [] => []
  | [p] => p
  | p :: rest => p ++ sep ++ join sep rest
  end.

(** [needle] occurs in [hay] at offset [i]. *)
Definition occurs_at (needle hay : jsstring) (i : nat) : Prop :=
  take (length needle) (drop i hay) = needle.

#[global] Instance occurs_at_dec needle hay i : Decision (occurs_at needle hay i).
Proof. unfold occurs_at. apply _. Defined.

(** All offsets at which [needle] occurs in [hay]. *)
Definition occurrences (needle hay : jsstring) : list nat :=
  filter (occurs_at needle hay) (seq 0 (S (length hay - length needle))).

(** [hay.includes(needle)] *)
Definition includes (hay needle : jsstring) : bool :=
  bool_decide (occurrences needle hay ≠ []).

(** ** JavaScript values that [JSON.parse] can build *)

(** The decimal [mant * 10 ^ exp10] a JSON number literal denotes.  The run
    time rounds it to the nearest double; the embedding keeps the decimal and
    decides from it what the code asks of a number, whether it is zero. *)
Record number := Number { mant : Z; exp10 : Z }.

(** An ordinary object is its own enumerable string-keyed properties, listed in
    the order [OrdinaryOwnPropertyKeys] gives them. *)
Inductive value :=
| VNull
| VBool (b : bool)
| VNum (d : number)
| VStr (s : jsstring)
| VArr (elems : list value)
| VObj (props : list (jsstring * value)).

Abbreviation props := (list (jsstring * value)).

(** The decimal rounds to [+0] or [-0]: it is zero, or at most half the least
    subnormal double, [2 ^ -1075] (a tie rounds to even, that is to zero). *)
Definition rounds_to_zero (d : number) : bool :=
  ((mant d =? 0)
   || (exp10 d <? 0) && (Z.abs (mant d) * 2 ^ 1075 <=? 10 ^ (- exp10 d)))%Z.

(** [ToBoolean] *)
Definition truthy (v : value) : bool :=
  match v with
  | VNull => false
  | VBool b => b
  | VNum d => negb (rounds_to_zero d)
  | VStr s => negb (bool_decide (s = []))
  | VArr _ => true
  | VObj _ => true
  end.

(** [typeof v === 'object'], which holds of [null] and of arrays too. *)
Definition typeof_object (v : value) : bool :=
  match v with
  | VNull | VArr _ | VObj _ => true
  | _ => false
  end.

(** *** Property keys and their order *)

Definition is_digit (c : N) : bool := ((48 <=? c) && (c <=? 57))%N.

Definition digits_value (ds : jsstring) : N :=
  fold_left (fun acc c => (10 * acc + (c - 48))%N) ds 0%N.

(** A key is an array index when it is the canonical decimal form of an
    integer below [2^32 - 1]. *)
Definition array_index (k : jsstring) : option N :=
  match k with
  | [] => None
  | c :: r =>
      if forallb is_digit k && implb (c =? 48)%N (bool_decide (r = []))
         && (length k <=? 10)%nat && (digits_value k <? 4294967295)%N
      then Some (digits_value k) else None
  end.

Fixpoint uint_digits (u : Decimal.uint) : jsstring :=
  match u with
  | Decimal.Nil => []
  | Decimal.D0 u => 48%N :: uint_digits u
  | Decimal.D1 u => 49%N :: uint_digits u
  | Decimal.D2 u => 50%N :: uint_digits u
  | Decimal.D3 u => 51%N :: uint_digits u
  | Decimal.D4 u => 52%N :: uint_digits u
  | Decimal.D5 u => 53%N :: uint_digits u
  | Decimal.D6 u => 54%N :: uint_digits u
  | Decimal.D7 u => 55%N :: uint_digits u
  | Decimal.D8 u => 56%N :: uint_digits u
  | Decimal.D9 u => 57%N :: uint_digits u
  end.

(** A digit string without a leading zero. *)
Definition nlz (ds : jsstring) : Prop :=
  match ds with c :: _ => c <> 48%N | [] => True end.

(** [String(i)] for an index. *)
Definition index_key (i : nat) : jsstring := uint_digits (Nat.to_uint i).

Definition has_key (k : jsstring) (o : props) : bool :=
  bool_decide (k ∈ o.*1).

(** [o[k]] on own properties. *)
Fixpoint get_prop (k : jsstring) (o : props) : option value :=
  match o with
  | [] => None
  | (k', v) :: r => if decide (k' = k) then Some v else get_prop k r
  end.

Fixpoint replace_prop (k : jsstring) (v : value) (o : props) : props :=
  match o with
  | [] => []
  | (k', v') :: r =>
      if decide (k' = k) then (k', v) :: r else (k', v') :: replace_prop k v r
  end.

(** A new array-index key goes after the smaller indices and before the rest. *)
Fixpoint insert_index (n : N) (k : jsstring) (v : value) (o : props) : props :=
  match o with
  | [] => [(k, v)]
  | (k', v') :: r =>
      match array_index k' with
      | Some m => if (m <? n)%N then (k', v') :: insert_index n k v r
                  else (k, v) :: o
      | None => (k, v) :: o
      end
  end.

(** [CreateDataProperty(o, k, v)]: an existing key keeps its place and takes
    the new value; a new array index is placed in ascending numeric order among
    the indices, which come first; any other new key goes last. *)
Definition set_prop (o : props) (k : jsstring) (v : value) : props :=
  if has_key k o then replace_prop k v o
  else match array_index k with
       | Some n => insert_index n k v o
       | None => o ++ [(k, v)]
       end.

(** [Object.keys(o)] *)
Definition Object_keys (o : props) : list jsstring := o.*1.

(** [k1] can stand before [k2] among the keys of one object: array indices
    come first, in ascending order. *)
Definition key_before (k1 k2 : jsstring) : Prop :=
  match array_index k1, array_index k2 with
  | Some a, Some b => (a < b)%N
  | Some _, None => True
  | None, Some _ => False
  | None, None => True
  end.

Fixpoint ordered_keys (ks : list jsstring) : Prop :=
  match ks with
  | [] => True
  | k :: r => Forall (key_before k) r /\ ordered_keys r
  end.

(** The property lists that are objects: no key twice, keys in key order. *)
Definition well_formed (o : props) : Prop :=
  NoDup o.*1 /\ ordered_keys o.*1.

(** ** [JSON.parse]

    A recursive-descent reader of the JSON grammar (ECMA-404), as
    [JSON.parse(text)] without a reviver applies it.  Every nested call spends
    one unit of [fuel]; [JSON_parse] supplies enough for the whole text. *)

Inductive parsed (A : Type) :=
| Parsed (a : A) (rest : jsstring)
| SyntaxError
| OutOfFuel.
Arguments Parsed {A} a rest.
Arguments SyntaxError {A}.
Arguments OutOfFuel {A}.

(** JSON white space: SP, TAB, LF and CR only. *)
Definition is_json_ws (c : N) : bool :=
  ((c =? 32) || (c =? 9) || (c =? 10) || (c =? 13))%N.

Fixpoint skip_ws (s : jsstring) : jsstring :=
  match s with
  | c :: r => if is_json_ws c then skip_ws r else s
  | [] => []
  end.

Definition hex_value (c : N) : option N :=
  if is_digit c then Some (c - 48)%N
  else if ((65 <=? c) && (c <=? 70))%N then Some (c - 55)%N
  else if ((97 <=? c) && (c <=? 102))%N then Some (c - 87)%N
  else None.

(** The code unit a single-character escape stands for. *)
Definition unescape (c : N) : option N :=
  if (c =? ch "b")%N then Some 8%N
  else if (c =? ch "f")%N then Some 12%N
  else if (c =? ch "n")%N then Some 10%N
  else if (c =? ch "r")%N then Some 13%N
  else if (c =? ch "t")%N then Some 9%N
  else if (c =? ch "/")%N || (c =? ch "\")%N || (c =? dquote)%N then Some c
  else None.

(** The characters of a string literal after its opening quote, up to and
    including the closing quote. *)
Fixpoint parse_chars (s acc : jsstring) : option (jsstring * jsstring) :=
  match s with
  | [] => None
  | c :: r =>
      if (c =? dquote)%N then Some (rev acc, r)
      else if (c =? ch "\")%N then
        match r with
        | [] => None
        | e :: r1 =>
            if (e =? ch "u")%N then
              match r1 with
              | h1 :: h2 :: h3 :: h4 :: r2 =>
                  match hex_value h1, hex_value h2, hex_value h3, hex_value h4 with
                  | Some a, Some b, Some c', Some d =>
                      parse_chars r2 ((4096 * a + 256 * b + 16 * c' + d)%N :: acc)
                  | _, _, _, _ => None
                  end
              | _ => None
              end
            else
              match unescape e with
              | Some c' => parse_chars r1 (c' :: acc)
              | None => None
              end
        end
      else if (c <? 32)%N then None
      else parse_chars r (c :: acc)
  end.

(** The longest run of digits at the head of [s], and what follows it. *)
Fixpoint span_digits (s : jsstring) : jsstring * jsstring :=
  match s with
  | c :: r => if is_digit c then let (ds, r') := span_digits r in (c :: ds, r')
              else ([], s)
  | [] => ([], [])
  end.

(** A number literal: an optional minus, an integer part that is [0] or starts
    with a digit other than [0], an optional fraction of a point and digits, an
    optional exponent of [e] or [E], an optional sign and digits. *)
Definition parse_number (s : jsstring) : option (number * jsstring) :=
  let (neg, s1) := match s with
                   | c :: r => if (c =? ch "-")%N then (true, r) else (false, s)
                   | [] => (false, s)
                   end in
  let (int_ds, s2) := span_digits s1 in
  match int_ds with
  | [] => None
  | d0 :: more =>
      if (d0 =? 48)%N && negb (bool_decide (more = [])) then None
      else
        let frac :=
          match s2 with
          | c :: r =>
              if (c =? ch ".")%N then
                let (fs, r') := span_digits r in
                match fs with [] => None | _ => Some (fs, r') end
              else Some ([], s2)
          | [] => Some ([], s2)
          end in
        match frac with
        | None => None
        | Some (frac_ds, s3) =>
            let expo :=
              match s3 with
              | c :: r =>
                  if (c =? ch "e")%N || (c =? ch "E")%N then
                    let (eneg, r1) :=
                      match r with
                      | x :: r' => if (x =? ch "-")%N then (true, r')
                                   else if (x =? ch "+")%N then (false, r')
                                   else (false, r)
                      | [] => (false, r)
                      end in
                    let (es, r2) := span_digits r1 in
                    match es with
                    | [] => None
                    | _ => let e := Z.of_N (digits_value es) in
                           Some (if eneg then (- e)%Z else e, r2)
                    end
                  else Some (0%Z, s3)
              | [] => Some (0%Z, s3)
              end in
            match expo with
            | None => None
            | Some (e, s4) =>
                let m := Z.of_N (digits_value (int_ds ++ frac_ds)) in
                Some ({| mant := if neg then (- m)%Z else m;
                         exp10 := (e - Z.of_nat (length frac_ds))%Z |}, s4)
            end
        end
  end.

(** [s] starts with the keyword [kw]: what follows it. *)
Fixpoint strip_prefix (kw s : jsstring) : option jsstring :=
  match kw, s with
  | [], _ => Some s
  | k :: kw', c :: s' => if (k =? c)%N then strip_prefix kw' s' else None
  | _ :: _, [] => None
  end.

Definition parse_keyword (kw : string) (v : value) (s : jsstring) : parsed value :=
  match strip_prefix (lit kw) s with
  | Some r => Parsed v r
  | None => SyntaxError
  end.

Fixpoint parse_value (fuel : nat) (s : jsstring) : parsed value :=
  match fuel with
  | O => OutOfFuel
  | S fuel =>
      match skip_ws s with
      | [] => SyntaxError
      | c :: r =>
          if (c =? ch "{")%N then
            match skip_ws r with
            | c' :: r' =>
                if (c' =? ch "}")%N then Parsed (VObj []) r'
                else parse_members fuel r []
            | [] => SyntaxError
            end
          else if (c =? ch "[")%N then
            match skip_ws r with
            | c' :: r' =>
                if (c' =? ch "]")%N then Parsed (VArr []) r'
                else parse_elements fuel r []
            | [] => SyntaxError
            end
          else if (c =? dquote)%N then
            match parse_chars r [] with
            | Some (str, r') => Parsed (VStr str) r'
            | None => SyntaxError
            end
          else if (c =? ch "t")%N then parse_keyword "true" (VBool true) (c :: r)
          else if (c =? ch "f")%N then parse_keyword "false" (VBool false) (c :: r)
          else if (c =? ch "n")%N then parse_keyword "null" VNull (c :: r)
          else
            match parse_number (c :: r) with
            | Some (d, r') => Parsed (VNum d) r'
            | None => SyntaxError
            end
      end
  end

(** The elements of an array after its opening bracket; [acc] holds the ones
    read so far, last first. *)
with parse_elements (fuel : nat) (s : jsstring) (acc : list value) : parsed value :=
  match fuel with
  | O => OutOfFuel
  | S fuel =>
      match parse_value fuel s with
      | Parsed v r =>
          match skip_ws r with
          | c :: r' =>
              if (c =? ch ",")%N then parse_elements fuel r' (v :: acc)
              else if (c =? ch "]")%N then Parsed (VArr (rev (v :: acc))) r'
              else SyntaxError
          | [] => SyntaxError
          end
      | SyntaxError => SyntaxError
      | OutOfFuel => OutOfFuel
      end
  end

(** The members of an object after its opening brace; [acc] is the object
    built so far.  A repeated name overwrites the earlier value. *)
with parse_members (fuel : nat) (s : jsstring) (acc : props) : parsed value :=
  match fuel with
  | O => OutOfFuel
  | S fuel =>
      match skip_ws s with
      | q :: r =>
          if (q =? dquote)%N then
            match parse_chars r [] with
            | Some (k, r1) =>
                match skip_ws r1 with
                | c :: r2 =>
                    if (c =? ch ":")%N then
                      match parse_value fuel r2 with
                      | Parsed v r3 =>
                          match skip_ws r3 with
                          | c' :: r4 =>
                              if (c' =? ch ",")%N
                              then parse_members fuel r4 (set_prop acc k v)
                              else if (c' =? ch "}")%N
                              then Parsed (VObj (set_prop acc k v)) r4
                              else SyntaxError
                          | [] => SyntaxError
                          end
                      | SyntaxError => SyntaxError
                      | OutOfFuel => OutOfFuel
                      end
                    else SyntaxError
                | [] => SyntaxError
                end
            | None => SyntaxError
            end
          else SyntaxError
      | [] => SyntaxError
      end
  end.

(** [JSON.parse(text)]: [None] stands for the [SyntaxError] it throws. *)
Definition JSON_parse (text : jsstring) : option value :=
  match parse_value (2 * length text + 2) text with
  | Parsed v rest => match skip_ws rest with [] => Some v | _ => None end
  | _ => None
  end.

(** ** Promises

    How an awaited promise settles, and what a [catch] clause can receive. *)

Inductive thrown :=
| JsError (message : jsstring)   (* an instance of [Error] *)
| NotError (v : value).          (* anything else that was thrown *)

Inductive settled (A : Type) :=
| Fulfilled (a : A)
| Rejected (reason : thrown).
Arguments Fulfilled {A} a.
Arguments Rejected {A} reason.

(** ** services/hdl-generator.service.ts *)

(** [interface HdlFile]: at run time a reply entry is whatever the reply held;
    this is the shape the schema asks for, with every field a non-empty
    string. *)
Definition nonempty_string_field (k : string) (o : props) : bool :=
  match get_prop (lit k) o with
  | Some (VStr s) => negb (bool_decide (s = []))
  | _ => false
  end.

Definition is_HdlFile (v : value) : bool :=
  match v with
  | VObj o =>
      (length o =? 3)%nat && nonempty_string_field "filename" o
      && nonempty_string_field "language" o && nonempty_string_field "code" o
  | _ => false
  end.

(** What [[[Prototype]]] of an object created by a literal [{}] points to:
    [Object.prototype], unless an assignment to [__proto__] replaced it. *)
Inductive prototype :=
| ObjectPrototype
| ProtoValue (v : value).

(** [interface GeneratedOutput]: the object [generateHdl] builds and returns,
    as its prototype and its own properties. *)
Record GeneratedOutput := { proto : prototype; own : props }.

Inductive HdlLanguage := VHDL | Verilog.

Definition HdlLanguage_string (l : HdlLanguage) : jsstring :=
  match l with
  | VHDL => lit "VHDL"
  | Verilog => lit "Verilog"
  end.

Inductive Schema :=
| STRING (description : jsstring)
| OBJECT (properties : list (jsstring * Schema)) (required : list jsstring).

Definition fileSchema : Schema :=
  OBJECT
    [ (lit "filename", STRING (lit "The filename for the code, e.g., 'counter.v' or 'spec.md'."));
      (lit "language", STRING (lit "The programming/markup language, e.g., 'Verilog', 'SystemVerilog', 'Markdown'."));
      (lit "code", STRING (lit "The complete, syntactically correct code or document content.")) ]
    [lit "filename"; lit "language"; lit "code"].

Definition responseSchema : Schema :=
  OBJECT
    [ (lit "rtlCode", fileSchema); (lit "testbench", fileSchema);
      (lit "testCases", fileSchema); (lit "designSpec", fileSchema) ]
    [].

(** The argument of [ai.models.generateContent]. *)
Record GenerateContentRequest := {
  model : jsstring;
  contents : jsstring;
  responseMimeType : jsstring;
  request_schema : Schema
}.

(** What the remote call resolves to; [response.text] may be [undefined]. *)
Record GenerateContentResponse := { text : option jsstring }.

(** The [switch] of [buildPrompt]. *)
Definition deliverable_phrase (hdlLanguage d : jsstring) : jsstring :=
  if decide (d = lit "rtlCode") then lit "RTL Code in " ++ hdlLanguage
  else if decide (d = lit "testbench") then lit "SystemVerilog/UVM Testbench"
  else if decide (d = lit "testCases") then lit "Test Cases Description (in Markdown)"
  else if decide (d = lit "designSpec") then lit "Design Specification (in Markdown)"
  else d.

Definition line (s : string) : jsstring := lit s ++ [LF].

(** The template literal up to [${description}]. *)
Definition prompt_head : jsstring :=
  [LF]
  ++ line "      You are an expert Hardware Design and Verification Engineer AI assistant. Your role is to help users develop, verify, and test digital designs."
  ++ line "      Follow best practices for synthesizable, modular, and well-documented code."
  ++ [LF]
  ++ line "      User's Design Request:"
  ++ lit "      " ++ [dquote].

(** Between [${description}] and the first [${hdlLanguage}]. *)
Definition prompt_task : jsstring :=
  [dquote; LF]
  ++ [LF]
  ++ line "      Generation Task:"
  ++ lit "      - Target RTL Language: ".

(** Between the first [${hdlLanguage}] and the line of [${deliverableList}]. *)
Definition prompt_env : jsstring :=
  [LF] ++ line "      - Verification Environment: SystemVerilog with UVM.".

(** The line of [${deliverableList}], up to it. *)
Definition clause_open : jsstring := lit "      - Required Deliverables: ".

(** After [${deliverableList}]. *)
Definition prompt_tail : jsstring :=
  line "."
  ++ [LF]
  ++ line "      Instructions:"
  ++ line "      1.  Analyze the user's request and generate all the required deliverables."
  ++ line "      2.  Ensure all generated code is syntactically correct and complete."
  ++ line "      3.  For testbenches, create a comprehensive UVM-based environment."
  ++ line "      4.  For documentation (like specs or test cases), use Markdown format."
  ++ line "      5.  Return the output as a single, valid JSON object that adheres to the provided schema. Do not include any text, markdown formatting, or code blocks before or after the JSON object."
  ++ line "      6.  Only generate properties in the JSON for the deliverables that were explicitly requested."
  ++ lit "    ".

Definition buildPrompt (description hdlLanguage : jsstring)
    (deliverables : list jsstring) : jsstring :=
  let deliverableList :=
    join (lit ", ") (map (deliverable_phrase hdlLanguage) deliverables) in
  prompt_head ++ description ++ prompt_task ++ hdlLanguage ++ prompt_env
  ++ clause_open ++ deliverableList ++ prompt_tail.

(** *** The filter loop of [generateHdl] *)

(** The keys [for (const key in v)] visits: the enumerable string keys of [v]
    (of its wrapper for a primitive; none for [null]); the prototypes of the
    values [JSON.parse] builds hold no enumerable property. *)
Definition for_in (v : value) : list jsstring :=
  match v with
  | VObj o => Object_keys o
  | VArr elems => map index_key (seq 0 (length elems))
  | VStr s => map index_key (seq 0 (length s))
  | _ => []
  end.

(** [v[key]], [None] for [undefined], on the own properties [for_in] can
    name. *)
Definition get (v : value) (key : jsstring) : option value :=
  match v with
  | VObj o => get_prop key o
  | VArr elems => n ← array_index key; elems !! N.to_nat n
  | VStr s => n ← array_index key; c ← s !! N.to_nat n; Some (VStr [c])
  | _ => None
  end.

(** [Object.prototype.hasOwnProperty.call(v, key)] for such a key. *)
Definition hasOwnProperty (v : value) (key : jsstring) : bool :=
  bool_decide (is_Some (get v key)).

(** [cleanOutput[key] = v].  For every key but [__proto__] this defines or
    updates an own property.  [__proto__] is not an own property of
    [cleanOutput] but the accessor inherited from [Object.prototype]: the
    assignment runs its setter, which replaces the prototype when [v] is an
    object and does nothing otherwise; no own property is created. *)
Definition assign (cleanOutput : GeneratedOutput) (key : jsstring) (v : value)
    : GeneratedOutput :=
  if decide (key = lit "__proto__") then
    if typeof_object v then {| proto := ProtoValue v; own := own cleanOutput |}
    else cleanOutput
  else {| proto := proto cleanOutput; own := set_prop (own cleanOutput) key v |}.

Definition empty_object : GeneratedOutput :=
  {| proto := ObjectPrototype; own := [] |}.

(** The entries of a reply object that become own properties of
    [cleanOutput]. *)
Definition kept (kv : jsstring * value) : bool :=
  truthy kv.2 && negb (bool_decide (kv.1 = lit "__proto__")).

(** One turn of the loop, on an entry [kv] of the reply object. *)
Definition keep (cleanOutput : GeneratedOutput) (kv : jsstring * value)
    : GeneratedOutput :=
  if truthy kv.2 then assign cleanOutput kv.1 kv.2 else cleanOutput.

(** Lines 80-86: [cleanOutput] after the loop over [parsedJson]. *)
Definition cleanOutput_of (parsedJson : value) : GeneratedOutput :=
  fold_left
    (fun cleanOutput key =>
       match get parsedJson key with
       | Some v =>
           if hasOwnProperty parsedJson key && truthy v
           then assign cleanOutput key v
           else cleanOutput
       | None => cleanOutput
       end)
    (for_in parsedJson) empty_object.

(** Lines 76-86, the part of the [try] block after the [await], which the
    specification calls normalization: [None] when a statement throws
    ([response.text] undefined, or [JSON.parse] rejecting the text). *)
Definition normalize (rawText : option jsstring) : option GeneratedOutput :=
  jsonText ← trim <$> rawText;
  parsedJson ← JSON_parse jsonText;
  Some (cleanOutput_of parsedJson).

Definition generic_failure : jsstring :=
  lit "The AI model failed to generate a valid response.".

(** [generateHdl] up to its [await]: the call it makes. *)
Definition generateHdl_request (description : jsstring) (hdlLanguage : HdlLanguage)
    (deliverables : list jsstring) : GenerateContentRequest :=
  {| model := lit "gemini-2.5-flash";
     contents := buildPrompt description (HdlLanguage_string hdlLanguage) deliverables;
     responseMimeType := lit "application/json";
     request_schema := responseSchema |}.

(** [generateHdl] from its [await] on: how the promise it returned settles,
    given how the remote call settled.  Whatever is thrown inside [try] is
    logged and replaced by one fixed [Error]. *)
Definition generateHdl_resume (remote : settled GenerateContentResponse)
    : settled GeneratedOutput :=
  let attempt :=
    match remote with
    | Fulfilled response => normalize (text response)
    | Rejected _ => None
    end in
  match attempt with
  | Some cleanOutput => Fulfilled cleanOutput
  | None => Rejected (JsError generic_failure)
  end.

(** ** app.component.ts *)

(** [interface Deliverable]; [id] is a string at run time. *)
Record Deliverable := { id : jsstring; name : jsstring; checked : bool }.

(** No [Deliverable] object is written to after its creation, so an object
    reference is kept as the address it was allocated at together with the
    record found there: two references are the same object when the addresses
    agree. *)
Abbreviation DeliverableRef := (positive * Deliverable)%type.

(** The signals and fields of [AppComponent]; [None] is [null] (or, for
    [loadingInterval], [undefined]). *)
Record AppComponent := {
  description : jsstring;
  hdlLanguage : HdlLanguage;
  deliverables : list DeliverableRef;
  isLoading : bool;
  error : option jsstring;
  generatedOutput : option GeneratedOutput;
  activeTab : option jsstring;
  loadingMessage : jsstring;
  loadingInterval : option positive
}.

(** The component in its surroundings: the recurring tasks [setInterval]
    registered and [clearInterval] has not removed, each with the counter [i]
    its callback closes over; the next timer handle (handles are positive
    integers) and the next free object address; the calls made to the remote
    model, oldest first; and how many invocations of [generate] are suspended
    at their [await]. *)
Record World := {
  app : AppComponent;
  intervals : list (positive * nat);
  next_handle : positive;
  next_address : positive;
  requests : list GenerateContentRequest;
  awaiting : nat
}.

Definition with_app (f : AppComponent -> AppComponent) (w : World) : World :=
  {| app := f (app w); intervals := intervals w; next_handle := next_handle w;
     next_address := next_address w; requests := requests w;
     awaiting := awaiting w |}.

Definition set_description (s : jsstring) (a : AppComponent) : AppComponent :=
  {| description := s; hdlLanguage := hdlLanguage a;
     deliverables := deliverables a; isLoading := isLoading a; error := error a;
     generatedOutput := generatedOutput a; activeTab := activeTab a;
     loadingMessage := loadingMessage a; loadingInterval := loadingInterval a |}.

Definition set_hdlLanguage (l : HdlLanguage) (a : AppComponent) : AppComponent :=
  {| description := description a; hdlLanguage := l;
     deliverables := deliverables a; isLoading := isLoading a; error := error a;
     generatedOutput := generatedOutput a; activeTab := activeTab a;
     loadingMessage := loadingMessage a; loadingInterval := loadingInterval a |}.

Definition set_deliverables (ds : list DeliverableRef) (a : AppComponent)
    : AppComponent :=
  {| description := description a; hdlLanguage := hdlLanguage a;
     deliverables := ds; isLoading := isLoading a; error := error a;
     generatedOutput := generatedOutput a; activeTab := activeTab a;
     loadingMessage := loadingMessage a; loadingInterval := loadingInterval a |}.

Definition set_isLoading (b : bool) (a : AppComponent) : AppComponent :=
  {| description := description a; hdlLanguage := hdlLanguage a;
     deliverables := deliverables a; isLoading := b; error := error a;
     generatedOutput := generatedOutput a; activeTab := activeTab a;
     loadingMessage := loadingMessage a; loadingInterval := loadingInterval a |}.

Definition set_error (e : option jsstring) (a : AppComponent) : AppComponent :=
  {| description := description a; hdlLanguage := hdlLanguage a;
     deliverables := deliverables a; isLoading := isLoading a; error := e;
     generatedOutput := generatedOutput a; activeTab := activeTab a;
     loadingMessage := loadingMessage a; loadingInterval := loadingInterval a |}.

Definition set_generatedOutput (o : option GeneratedOutput) (a : AppComponent)
    : AppComponent :=
  {| description := description a; hdlLanguage := hdlLanguage a;
     deliverables := deliverables a; isLoading := isLoading a; error := error a;
     generatedOutput := o; activeTab := activeTab a;
     loadingMessage := loadingMessage a; loadingInterval := loadingInterval a |}.

Definition set_activeTab (t : option jsstring) (a : AppComponent) : AppComponent :=
  {| description := description a; hdlLanguage := hdlLanguage a;
     deliverables := deliverables a; isLoading := isLoading a; error := error a;
     generatedOutput := generatedOutput a; activeTab := t;
     loadingMessage := loadingMessage a; loadingInterval := loadingInterval a |}.

Definition set_loadingMessage (m : jsstring) (a : AppComponent) : AppComponent :=
  {| description := description a; hdlLanguage := hdlLanguage a;
     deliverables := deliverables a; isLoading := isLoading a; error := error a;
     generatedOutput := generatedOutput a; activeTab := activeTab a;
     loadingMessage := m; loadingInterval := loadingInterval a |}.

Definition set_loadingInterval (h : option positive) (a : AppComponent)
    : AppComponent :=
  {| description := description a; hdlLanguage := hdlLanguage a;
     deliverables := deliverables a; isLoading := isLoading a; error := error a;
     generatedOutput := generatedOutput a; activeTab := activeTab a;
     loadingMessage := loadingMessage a; loadingInterval := h |}.

Definition availableDeliverables : list DeliverableRef :=
  [ (1%positive, {| id := lit "rtlCode"; name := lit "RTL Code"; checked := true |});
    (2%positive, {| id := lit "testbench"; name := lit "UVM Testbench"; checked := true |});
    (3%positive, {| id := lit "testCases"; name := lit "Test Cases"; checked := false |});
    (4%positive, {| id := lit "designSpec"; name := lit "Design Specification"; checked := false |}) ].

(** The component as its field initialisers leave it. *)
Definition initial_app : AppComponent :=
  {| description := lit "Design a 4-bit synchronous up-counter with an active-high reset.";
     hdlLanguage := Verilog;
     deliverables := availableDeliverables;
     isLoading := false;
     error := None;
     generatedOutput := None;
     activeTab := None;
     loadingMessage := lit "Initializing AI assistant...";
     loadingInterval := None |}.

Definition initial_world : World :=
  {| app := initial_app; intervals := []; next_handle := 1%positive;
     next_address := 5%positive; requests := []; awaiting := 0 |}.

(** [deliverables().filter(d => d.checked).map(d => d.id)] *)
Definition selectedDeliverables (a : AppComponent) : list jsstring :=
  map (fun d => id d.2) (filter (fun d => checked d.2 = true) (deliverables a)).

(** The [messages] of [startLoading]. *)
Definition messages : list jsstring :=
  [ lit "Synthesizing RTL..."; lit "Building UVM environment...";
    lit "Generating test cases..."; lit "Running simulations...";
    lit "Analyzing coverage..."; lit "Finalizing documentation..." ].

(** [messages[i]] *)
Definition message (i : nat) : jsstring := nth i messages [].

(** [clearInterval(h)] *)
Definition clearInterval (h : positive) (ts : list (positive * nat))
    : list (positive * nat) :=
  filter (fun t => t.1 ≠ h) ts.

Definition startLoading (w : World) : World :=
  let h := next_handle w in
  {| app := set_loadingInterval (Some h)
              (set_loadingMessage (message 0) (set_isLoading true (app w)));
     intervals := intervals w ++ [(h, 0)];
     next_handle := Pos.succ h;
     next_address := next_address w;
     requests := requests w;
     awaiting := awaiting w |}.

Definition stopLoading (w : World) : World :=
  {| app := set_isLoading false (app w);
     intervals := match loadingInterval (app w) with
                  | Some h => clearInterval h (intervals w)
                  | None => intervals w
                  end;
     next_handle := next_handle w;
     next_address := next_address w;
     requests := requests w;
     awaiting := awaiting w |}.

(** One run of the callback [startLoading] handed to [setInterval], for the
    task with handle [h]; nothing runs for a handle that is not registered. *)
Definition tick (h : positive) (w : World) : World :=
  match list_find (fun t => t.1 = h) (intervals w) with
  | Some (n, (_, i)) =>
      let i' := (i + 1) mod length messages in
      {| app := set_loadingMessage (message i') (app w);
         intervals := <[n := (h, i')]> (intervals w);
         next_handle := next_handle w;
         next_address := next_address w;
         requests := requests w;
         awaiting := awaiting w |}
  | None => w
  end.

(** [generate()] up to its [await] (lines 53-65): the guard, [startLoading],
    the two resets, and the call [generateHdl] makes before it suspends. *)
Definition generate (w : World) : World :=
  if isLoading (app w) || bool_decide (trim (description (app w)) = []) then w
  else
    let w1 := startLoading w in
    let a := set_generatedOutput None (set_error None (app w1)) in
    {| app := a;
       intervals := intervals w1;
       next_handle := next_handle w1;
       next_address := next_address w1;
       requests := requests w1
                   ++ [generateHdl_request (description a) (hdlLanguage a)
                         (selectedDeliverables a)];
       awaiting := S (awaiting w1) |}.

Definition failure_label : jsstring := lit "Failed to generate HDL content. ".

Definition unknown_error : jsstring :=
  lit "An unknown error occurred. Please check the console for details.".

(** Lines 66-71, after [generateHdl] fulfilled with [result]. *)
Definition on_result (result : GeneratedOutput) (a : AppComponent) : AppComponent :=
  let a1 := set_generatedOutput (Some result) a in
  match head (Object_keys (own result)) with
  | Some firstKey =>
      if bool_decide (firstKey = []) then a1 else set_activeTab (Some firstKey) a1
  | None => a1
  end.

(** Lines 72-75, the [catch] clause. *)
Definition on_error (err : thrown) (a : AppComponent) : AppComponent :=
  let errorMessage :=
    match err with
    | JsError message => message
    | NotError _ => unknown_error
    end in
  set_error (Some (failure_label ++ errorMessage)) a.

(** [generate()] from its [await] on, when the remote call has settled:
    [generateHdl] finishes, then the [try], [catch] and [finally] of
    [generate].  Nothing happens when no invocation is suspended. *)
Definition generate_resume (remote : settled GenerateContentResponse) (w : World)
    : World :=
  match awaiting w with
  | O => w
  | S n =>
      let a := match generateHdl_resume remote with
               | Fulfilled result => on_result result (app w)
               | Rejected err => on_error err (app w)
               end in
      stopLoading
        {| app := a; intervals := intervals w; next_handle := next_handle w;
           next_address := next_address w; requests := requests w;
           awaiting := n |}
  end.

(** [toggleDeliverable(index)]: [None] stands for the [TypeError] raised when
    [updated[index]] is [undefined] and its [checked] is read; the signal is
    then left as it was.  Otherwise the array is copied, and a new object, the
    old entry with [checked] negated, is stored at [index]. *)
Definition toggleDeliverable (index : Z) (w : World) : option World :=
  if (index <? 0)%Z then None
  else
    match deliverables (app w) !! Z.to_nat index with
    | None => None
    | Some (_, d) =>
        let fresh := ({| id := id d; name := name d; checked := negb (checked d) |}) in
        Some {| app := set_deliverables
                         (<[Z.to_nat index := (next_address w, fresh)]>
                            (deliverables (app w)))
                         (app w);
                intervals := intervals w;
                next_handle := next_handle w;
                next_address := Pos.succ (next_address w);
                requests := requests w;
                awaiting := awaiting w |}
    end.

Definition setActiveTab (key : jsstring) (w : World) : World :=
  with_app (set_activeTab (Some key)) w.

(** What can happen to the component: its methods being called, the form
    writing the two input signals, a timer firing, the remote call settling. *)
Inductive event :=
| CallGenerate
| RemoteSettles (remote : settled GenerateContentResponse)
| TimerFires (h : positive)
| CallToggleDeliverable (index : Z)
| CallSetActiveTab (key : jsstring)
| InputDescription (s : jsstring)
| InputLanguage (l : HdlLanguage).

Definition step (w : World) (e : event) : World :=
  match e with
  | CallGenerate => generate w
  | RemoteSettles remote => generate_resume remote w
  | TimerFires h => tick h w
  | CallToggleDeliverable index => default w (toggleDeliverable index w)
  | CallSetActiveTab key => setActiveTab key w
  | InputDescription s => with_app (set_description s) w
  | InputLanguage l => with_app (set_hdlLanguage l) w
  end.

Definition run (w : World) (es : list event) : World := fold_left step es w.

(** A reply is a settlement of the remote call; every other event can happen
    while the call is pending. *)
Definition is_settlement (e : event) : bool :=
  match e with RemoteSettles _ => true | _ => false end.

(** The guard of [generate] lets a call through. *)
Definition accepted (w : World) : Prop :=
  isLoading (app w) = false /\ trim (description (app w)) <> [].

(** While [generate] is suspended exactly one rotation task is registered, the
    one [loadingInterval] names; otherwise none is, and nothing is awaited. *)
Definition rotation_invariant (w : World) : Prop :=
  if isLoading (app w)
  then awaiting w = 1
       /\ exists h i, loadingInterval (app w) = Some h /\ intervals w = [(h, i)]
  else awaiting w = 0 /\ intervals w = [].

(** ** Sample replies of the remote model *)

Definition quoted (s : string) : jsstring := dquote :: lit s ++ [dquote].

(** The record [{filename: 'a', language: 'Verilog', code: '...'}] and its
    JSON text. *)
Definition sample_file : value :=
  VObj [ (lit "filename", VStr (lit "a")); (lit "language", VStr (lit "Verilog"));
         (lit "code", VStr (lit "...")) ].

Definition sample_file_text : jsstring :=
  lit "{" ++ quoted "filename" ++ lit ":" ++ quoted "a" ++ lit ","
  ++ quoted "language" ++ lit ":" ++ quoted "Verilog" ++ lit ","
  ++ quoted "code" ++ lit ":" ++ quoted "..." ++ lit "}".

(** The reply with keys [rtlCode] (a record), [testbench] ([true]) and
    [testCases] ([null]). *)
Definition mixed_reply : jsstring :=
  lit "{" ++ quoted "rtlCode" ++ lit ": " ++ sample_file_text ++ lit ", "
  ++ quoted "testbench" ++ lit ": true, " ++ quoted "testCases" ++ lit ": null}".

Definition mixed_object : props :=
  [ (lit "rtlCode", sample_file); (lit "testbench", VBool true);
    (lit "testCases", VNull) ].

(** A reply whose only entry, a record, is named [__proto__]. *)
Definition proto_reply : jsstring :=
  lit "{" ++ quoted "__proto__" ++ lit ": " ++ sample_file_text ++ lit "}".

(** A reply whose only entry, a record, has the empty string for name. *)
Definition empty_key_reply : jsstring :=
  lit "{" ++ quoted "" ++ lit ": " ++ sample_file_text ++ lit "}".

(** A reply with the two records the initial selection asks for. *)
Definition clean_reply : jsstring :=
  lit "{" ++ quoted "rtlCode" ++ lit ": " ++ sample_file_text ++ lit ", "
  ++ quoted "testbench" ++ lit ": " ++ sample_file_text ++ lit "}".

Definition response (rawText : jsstring) : settled GenerateContentResponse :=
  Fulfilled {| text := Some rawText |}.

(** The component after one generation that succeeded: it shows a result, and
    the tab of its first key. *)
Definition world_with_result : World :=
  run initial_world [CallGenerate; RemoteSettles (response clean_reply)].

(** ** More of app.component.ts *)

(** The own enumerable properties an object spread [{...v}] copies from [v],
    in key order: the entries of an object, the elements of an array and the
    code units of a string under their indices, nothing for the other
    values. *)
Definition spread_source (v : value) : props :=
  match v with
  | VObj o => o
  | VArr elems => imap (fun i x => (index_key i, x)) elems
  | VStr s => imap (fun i c => (index_key i, VStr [c])) s
  | _ => []
  end.

(** [{...target, ...v}] once [target] exists: each copied property is defined
    on the new object with [CreateDataProperty], the name [__proto__]
    included. *)
Definition spread (target : props) (v : value) : props :=
  fold_left (fun t kv => set_prop t kv.1 kv.2) (spread_source v) target.

(** The computed signal [outputFiles] (lines 41-50): one object
    [{ key, ...value }] for every entry of the result whose value is truthy,
    and the empty list while there is no result. *)
Definition outputFiles (a : AppComponent) : list props :=
  match generatedOutput a with
  | None => []
  | Some output =>
      flat_map
        (fun kv => if truthy kv.2 then [spread [(lit "key", VStr kv.1)] kv.2] else [])
        (own output)
  end.

(** The [id]s of [availableDeliverables], in its order. *)
Definition deliverable_ids : list jsstring :=
  [lit "rtlCode"; lit "testbench"; lit "testCases"; lit "designSpec"].

(** How often the task with handle [h] fires in [es]. *)
Fixpoint ticks_of (h : positive) (es : list event) : nat :=
  match es with
  | [] => 0
  | TimerFires h' :: es' => (if decide (h' = h) then 1 else 0) + ticks_of h es'
  | _ :: es' => ticks_of h es'
  end.

(** What the template can show of a call: nothing of the last call while one
    is pending, and never an error beside a result; the one error text there
    is. *)
Definition display_invariant (w : World) : Prop :=
  (isLoading (app w) = true ->
   error (app w) = None /\ generatedOutput (app w) = None)
  /\ (error (app w) = None
      \/ (error (app w) = Some (failure_label ++ generic_failure)
          /\ generatedOutput (app w) = None)).

(** The list of deliverables keeps the four entries of [availableDeliverables]
    by [id] and [name]; its entries are distinct objects, allocated before
    [next_address]. *)
Definition deliverables_invariant (w : World) : Prop :=
  map (fun r => (id r.2, name r.2)) (deliverables (app w))
  = map (fun r => (id r.2, name r.2)) availableDeliverables
  /\ NoDup (deliverables (app w)).*1
  /\ Forall (fun r => (r.1 < next_address w)%positive) (deliverables (app w)).

(** A call [generate] can have made: the fixed model, format and schema, and a
    prompt built for a description that is not blank and for identifiers
    picked, in order, from the four known ones. *)
Definition request_from_form (r : GenerateContentRequest) : Prop :=
  model r = lit "gemini-2.5-flash"
  /\ responseMimeType r = lit "application/json"
  /\ request_schema r = responseSchema
  /\ exists d l ds,
       contents r = buildPrompt d (HdlLanguage_string l) ds
       /\ trim d <> [] /\ sublist ds deliverable_ids.

(** The entries [generateHdl] leaves in the object it returns. *)
Definition clean_entry (kv : jsstring * value) : Prop :=
  truthy kv.2 = true /\ kv.1 <> lit "__proto__".

(** A reply value without properties to visit. *)
Definition is_primitive_reply (v : value) : bool :=
  match v with
  | VNull | VBool _ | VNum _ => true
  | _ => false
  end.






(** A reply that names [testbench] (a record) before [2] ([true]) and
    [rtlCode] ([null]); as an object, the array index [2] comes first. *)
Definition numbered_reply : jsstring :=
  lit "{" ++ quoted "testbench" ++ lit ": " ++ sample_file_text ++ lit ", "
  ++ quoted "2" ++ lit ": true, " ++ quoted "rtlCode" ++ lit ": null}".

Definition numbered_object : props :=
  [ (lit "2", VBool true); (lit "testbench", sample_file); (lit "rtlCode", VNull) ].

(** * Properties *)

(** ** Strings *)

Section Strings.

Lemma trimStart_nil_iff s : trimStart s = [] <-> forallb is_white_space s = true.
Proof.
  induction s as [|c s IH]; simpl; [done|].
  destruct (is_white_space c); simpl; [done|]. split; discriminate.
Qed.

Lemma trimStart_all_white s :
  forallb is_white_space (trimStart s) = true -> trimStart s = [].
Proof.
  induction s as [|c s IH]; simpl; [done|].
  destruct (is_white_space c) eqn:E; [done|]. simpl. by rewrite E.
Qed.

Lemma forallb_rev {A} (f : A -> bool) l : forallb f (rev l) = forallb f l.
Proof.
  induction l as [|x l IH]; [done|]. simpl.
  rewrite forallb_app, IH. simpl. rewrite andb_true_r. apply andb_comm.
Qed.

(** [s.trim()] is the empty string exactly when [s] is empty or holds white
    space only. *)
Lemma trim_nil_iff s : trim s = [] <-> forallb is_white_space s = true.
Proof.
  unfold trim. split.
  - intros H. apply (f_equal (@rev N)) in H. rewrite rev_involutive in H.
    simpl in H. apply trimStart_nil_iff in H. rewrite forallb_rev in H.
    apply trimStart_nil_iff. by apply trimStart_all_white.
  - intros H. apply trimStart_nil_iff in H. rewrite H. done.
Qed.

End Strings.



(** ** The reader: it consumes input, and its fuel suffices *)

Section Reader.

Lemma skip_ws_length s : length (skip_ws s) <= length s.
Proof.
  induction s as [|c s IH]; simpl; [lia|].
  destruct (is_json_ws c); simpl; lia.
Qed.

Lemma skip_ws_cons_length s c r : skip_ws s = c :: r -> length r < length s.
Proof. intros H. pose proof (skip_ws_length s) as L. rewrite H in L. simpl in L. lia. Qed.

Lemma parse_chars_length s : forall acc k r,
  parse_chars s acc = Some (k, r) -> length r < length s.
Proof.
  induction s as [s IH] using (induction_ltof1 _ (@length N)); unfold ltof in IH.
  intros acc k r H. destruct s as [|c s]; [discriminate|]. simpl in H.
  repeat case_match; simplify_eq; simpl in *;
    try lia;
    match goal with
    | H : parse_chars _ _ = Some _ |- _ => apply IH in H; simpl in *; lia
    end.
Qed.

Lemma span_digits_length s ds r :
  span_digits s = (ds, r) -> length s = length ds + length r.
Proof.
  revert ds r. induction s as [|c s IH]; intros ds r H; simpl in H.
  - by simplify_eq.
  - destruct (is_digit c); [|by simplify_eq].
    destruct (span_digits s) as [ds' r'] eqn:E. simplify_eq.
    specialize (IH _ _ eq_refl). simpl. lia.
Qed.

Lemma parse_number_length s d r :
  parse_number s = Some (d, r) -> length r < length s.
Proof.
  unfold parse_number. intros H.
  repeat (case_match; simplify_eq);
    repeat match goal with
           | H : span_digits _ = _ |- _ => apply span_digits_length in H
           end; simpl in *; lia.
Qed.

Lemma strip_prefix_length kw : forall s r,
  strip_prefix kw s = Some r -> length s = length kw + length r.
Proof.
  induction kw as [|k kw IH]; intros s r H; simpl in H.
  - by simplify_eq.
  - destruct s as [|c s]; [discriminate|].
    destruct (k =? c)%N; [|discriminate]. apply IH in H. simpl. lia.
Qed.

Lemma parse_keyword_length kw v s v' r :
  kw <> ""%string -> parse_keyword kw v s = Parsed v' r -> length r < length s.
Proof.
  unfold parse_keyword. intros Hkw H.
  destruct (strip_prefix (lit kw) s) as [r'|] eqn:E; [|discriminate].
  simplify_eq. apply strip_prefix_length in E.
  destruct kw; [done|]. simpl in E. lia.
Qed.

End Reader.

Section ReaderFuel.

Local Ltac lengths :=
  repeat match goal with
         | H : skip_ws _ = _ :: _ |- _ => apply skip_ws_cons_length in H
         | H : parse_chars _ _ = Some _ |- _ => apply parse_chars_length in H
         | H : parse_number _ = Some _ |- _ => apply parse_number_length in H
         | H : parse_keyword _ _ _ = Parsed _ _ |- _ =>
             apply parse_keyword_length in H; [|done]
         end.

(** Whatever any of the three readers accepts, it has consumed input. *)
Lemma parse_consumes fuel :
  (forall s v r, parse_value fuel s = Parsed v r -> length r < length s)
  /\ (forall s acc v r, parse_elements fuel s acc = Parsed v r -> length r < length s)
  /\ (forall s acc v r, parse_members fuel s acc = Parsed v r -> length r < length s).
Proof.
  induction fuel as [|fuel (IHv & IHe & IHm)]; [by repeat split|].
  repeat split.
  - intros s v r H. simpl in H.
    repeat (case_match; simplify_eq); lengths; simpl in *;
      try match goal with
          | H : parse_elements _ _ _ = Parsed _ _ |- _ => apply IHe in H
          | H : parse_members _ _ _ = Parsed _ _ |- _ => apply IHm in H
          end; lengths; simpl in *; lia.
  - intros s acc v r H. simpl in H.
    repeat (case_match; simplify_eq); lengths;
      repeat match goal with
          | H : parse_value _ _ = Parsed _ _ |- _ => apply IHv in H
          | H : parse_elements _ _ _ = Parsed _ _ |- _ => apply IHe in H
          end; simpl in *; lia.
  - intros s acc v r H. simpl in H.
    repeat (case_match; simplify_eq); lengths;
      repeat match goal with
          | H : parse_value _ _ = Parsed _ _ |- _ => apply IHv in H
          | H : parse_members _ _ _ = Parsed _ _ |- _ => apply IHm in H
          end; simpl in *; lia.
Qed.

(** Fuel of twice the length of the text, and a little, is never exhausted. *)
Lemma parse_fuel_enough fuel :
  (forall s, 2 * length s + 1 <= fuel -> parse_value fuel s <> OutOfFuel)
  /\ (forall s acc, 2 * length s + 2 <= fuel -> parse_elements fuel s acc <> OutOfFuel)
  /\ (forall s acc, 2 * length s + 2 <= fuel -> parse_members fuel s acc <> OutOfFuel).
Proof.
  induction fuel as [|fuel (IHv & IHe & IHm)]; [repeat split; intros; lia|].
  destruct (parse_consumes fuel) as (Cv & Ce & Cm).
  repeat split.
  - intros s L H. simpl in H.
    repeat (case_match; simplify_eq); lengths; simpl in *;
      try (unfold parse_keyword in *; case_match; discriminate);
      match goal with
      | H : parse_elements _ _ _ = OutOfFuel |- _ => apply IHe in H; [done|lia]
      | H : parse_members _ _ _ = OutOfFuel |- _ => apply IHm in H; [done|lia]
      end.
  - intros s acc L H. simpl in H.
    repeat (case_match; simplify_eq); lengths;
      repeat match goal with
          | H : parse_value _ _ = Parsed _ _ |- _ => apply Cv in H
          end; simpl in *;
      match goal with
      | H : parse_value _ _ = OutOfFuel |- _ => apply IHv in H; [done|lia]
      | H : parse_elements _ _ _ = OutOfFuel |- _ => apply IHe in H; [done|lia]
      end.
  - intros s acc L H. simpl in H.
    repeat (case_match; simplify_eq); lengths;
      repeat match goal with
          | H : parse_value _ _ = Parsed _ _ |- _ => apply Cv in H
          end; simpl in *;
      match goal with
      | H : parse_value _ _ = OutOfFuel |- _ => apply IHv in H; [done|lia]
      | H : parse_members _ _ _ = OutOfFuel |- _ => apply IHm in H; [done|lia]
      end.
Qed.

(** [JSON_parse] never fails for want of fuel: when it gives [None] the text
    has a syntax error, or something other than white space follows the
    value. *)
Lemma JSON_parse_total text :
  parse_value (2 * length text + 2) text <> OutOfFuel.
Proof. apply parse_fuel_enough. lia. Qed.

End ReaderFuel.

(** ** Objects: keys stay distinct and in key order *)

Section Keys.

Lemma digits_value_snoc ds d :
  digits_value (ds ++ [d]) = (10 * digits_value ds + (d - 48))%N.
Proof. unfold digits_value. by rewrite fold_left_app. Qed.

Lemma nlz_prefix p d : nlz (p ++ [d]) -> nlz p.
Proof. destruct p; simpl; auto. Qed.

Lemma is_digit_range c : is_digit c = true -> (48 <= c <= 57)%N.
Proof. unfold is_digit. intros [?%N.leb_le ?%N.leb_le]%andb_prop. lia. Qed.

Lemma nlz_positive ds :
  ds <> [] -> nlz ds -> forallb is_digit ds = true -> (0 < digits_value ds)%N.
Proof.
  induction ds as [|d p IH] using rev_ind; [done|].
  intros _ Hz Hd. rewrite digits_value_snoc.
  rewrite forallb_app in Hd. apply andb_prop in Hd as [Hp Hd]. simpl in Hd.
  rewrite andb_true_r in Hd. apply is_digit_range in Hd.
  destruct p as [|c p].
  - simpl in *. lia.
  - assert (0 < digits_value (c :: p))%N by (apply IH; [done|by eapply nlz_prefix|done]).
    lia.
Qed.

Lemma nlz_inj ds1 : forall ds2,
  nlz ds1 -> nlz ds2 ->
  forallb is_digit ds1 = true -> forallb is_digit ds2 = true ->
  digits_value ds1 = digits_value ds2 -> ds1 = ds2.
Proof.
  induction ds1 as [|d1 p1 IH] using rev_ind; intros ds2 Z1 Z2 D1 D2 E.
  - destruct ds2 as [|c r]; [done|].
    pose proof (nlz_positive (c :: r) ltac:(done) Z2 D2) as P.
    rewrite <- E in P. by apply N.lt_irrefl in P.
  - destruct ds2 as [|d2 p2 _] using rev_ind.
    + pose proof (nlz_positive (p1 ++ [d1]) ltac:(by destruct p1) Z1 D1) as P.
      rewrite E in P. by apply N.lt_irrefl in P.
    + rewrite !digits_value_snoc in E.
      rewrite forallb_app in D1, D2.
      apply andb_prop in D1 as [Dp1 Dd1]. apply andb_prop in D2 as [Dp2 Dd2].
      simpl in Dd1, Dd2. rewrite andb_true_r in Dd1, Dd2.
      apply is_digit_range in Dd1. apply is_digit_range in Dd2.
      assert (d1 = d2) by lia. assert (digits_value p1 = digits_value p2) by lia.
      subst. f_equal. apply IH; eauto using nlz_prefix.
Qed.

Lemma array_index_canonical k n :
  array_index k = Some n ->
  forallb is_digit k = true /\ digits_value k = n
  /\ (k = [48%N] \/ (k <> [] /\ nlz k)).
Proof.
  unfold array_index. destruct k as [|c r]; [done|].
  intros H. case_match eqn:E; [|done]. simplify_eq.
  apply andb_prop in E as [E _]. apply andb_prop in E as [E _].
  apply andb_prop in E as [E1 E2].
  repeat split; [done|].
  destruct (N.eqb_spec c 48) as [->|Hc].
  - left. simpl in E2. apply bool_decide_eq_true in E2. by subst.
  - right. by split.
Qed.

(** Two keys that denote the same array index are the same key. *)
Lemma array_index_inj k1 k2 n :
  array_index k1 = Some n -> array_index k2 = Some n -> k1 = k2.
Proof.
  intros (D1 & V1 & C1)%array_index_canonical (D2 & V2 & C2)%array_index_canonical.
  destruct C1 as [->|[N1 Z1]], C2 as [->|[N2 Z2]]; [done| | |].
  - pose proof (nlz_positive k2 N2 Z2 D2) as P. rewrite V2, <- V1 in P.
    by apply N.lt_irrefl in P.
  - pose proof (nlz_positive k1 N1 Z1 D1) as P. rewrite V1, <- V2 in P.
    by apply N.lt_irrefl in P.
  - apply nlz_inj; congruence.
Qed.

Lemma replace_prop_keys k v o : (replace_prop k v o).*1 = o.*1.
Proof.
  induction o as [|[k' v'] o IH]; [done|]. simpl.
  case_decide; csimpl; by rewrite ?IH.
Qed.

Lemma insert_index_keys n k v o : (insert_index n k v o).*1 ≡ₚ k :: o.*1.
Proof.
  induction o as [|[k' v'] o IH]; [done|]. simpl.
  repeat case_match; csimpl; try done.
  rewrite IH. apply Permutation_swap.
Qed.

Lemma set_prop_keys k v o :
  (set_prop o k v).*1 ≡ₚ (if has_key k o then o.*1 else k :: o.*1).
Proof.
  unfold set_prop. destruct (has_key k o).
  - by rewrite replace_prop_keys.
  - destruct (array_index k).
    + apply insert_index_keys.
    + rewrite fmap_app. simpl. by rewrite Permutation_app_comm.
Qed.

Lemma key_before_None k k' : array_index k = None -> key_before k' k.
Proof. unfold key_before. intros ->. by destruct (array_index k'). Qed.

Lemma insert_index_ordered n k v o :
  array_index k = Some n -> k ∉ o.*1 ->
  ordered_keys o.*1 -> ordered_keys (insert_index n k v o).*1.
Proof.
  intros Hk. induction o as [|[k' v'] o IH]; intros Hnot Hord; [by simpl|].
  simpl in Hnot, Hord. destruct Hord as [Hall Hord].
  apply not_elem_of_cons in Hnot as [Hne Hnot].
  simpl. destruct (array_index k') as [m|] eqn:Ek'.
  - destruct (N.ltb_spec m n).
    + simpl. split; [|by apply IH].
      rewrite insert_index_keys. constructor; [|done].
      unfold key_before. rewrite Ek', Hk. done.
    + simpl. split; [|done].
      assert (n < m)%N as Hlt.
      { destruct (decide (n = m)) as [->|]; [|lia].
        exfalso. apply Hne. by eapply array_index_inj. }
      constructor.
      * unfold key_before. by rewrite Hk, Ek'.
      * eapply Forall_impl; [exact Hall|]. intros k''. unfold key_before.
        rewrite Hk, Ek'. destruct (array_index k''); [lia|done].
  - simpl. split; [|done]. constructor.
    + unfold key_before. by rewrite Hk, Ek'.
    + eapply Forall_impl; [exact Hall|]. intros k''. unfold key_before.
      rewrite Hk, Ek'. by destruct (array_index k'').
Qed.

Lemma ordered_keys_snoc ks k :
  ordered_keys ks -> Forall (fun k' => key_before k' k) ks -> ordered_keys (ks ++ [k]).
Proof.
  induction ks as [|k' ks IH]; intros Hord Hall; simpl; [done|].
  destruct Hord as [H1 H2]. apply Forall_cons in Hall as [H3 H4].
  split; [|by apply IH]. apply Forall_app. split; [done|by constructor].
Qed.

Lemma ordered_keys_app_inv ks k :
  ordered_keys (ks ++ [k]) -> ordered_keys ks /\ Forall (fun k' => key_before k' k) ks.
Proof.
  induction ks as [|k' ks IH]; simpl; [done|].
  intros [[H1 H2]%Forall_app H3]. destruct (IH H3) as [H4 H5].
  apply Forall_cons in H2 as [H2 _]. repeat split; auto.
Qed.

Lemma ordered_keys_sublist ks1 ks2 :
  sublist ks1 ks2 -> ordered_keys ks2 -> ordered_keys ks1.
Proof.
  induction 1 as [|k l1 l2 Hs IH|k l1 l2 Hs IH]; simpl; [done|..].
  - intros [H1 H2]. split; [|by apply IH].
    apply Forall_forall. intros x Hx.
    eapply Forall_forall in H1; [exact H1|by eapply elem_of_sublist].
  - intros [H1 H2]. by apply IH.
Qed.

Lemma well_formed_sublist (o1 o2 : props) :
  sublist o1 o2 -> well_formed o2 -> well_formed o1.
Proof.
  intros Hs [H1 H2]. split.
  - eapply sublist_NoDup; [done|]. by apply fmap_sublist.
  - eapply ordered_keys_sublist; [|done]. by apply fmap_sublist.
Qed.

Lemma has_key_true k (o : props) : has_key k o = true <-> k ∈ o.*1.
Proof. unfold has_key. apply bool_decide_eq_true. Qed.

Lemma has_key_false k (o : props) : has_key k o = false <-> k ∉ o.*1.
Proof. unfold has_key. apply bool_decide_eq_false. Qed.

(** [CreateDataProperty] keeps an object an object. *)
Lemma set_prop_well_formed o k v : well_formed o -> well_formed (set_prop o k v).
Proof.
  intros [Hnd Hord]. split.
  - rewrite set_prop_keys. destruct (has_key k o) eqn:E; [done|].
    apply has_key_false in E. by constructor.
  - unfold set_prop. destruct (has_key k o) eqn:E.
    + by rewrite replace_prop_keys.
    + apply has_key_false in E. destruct (array_index k) as [n|] eqn:Ek.
      * by apply insert_index_ordered.
      * rewrite fmap_app. apply ordered_keys_snoc; [done|].
        apply Forall_forall. intros k' _. by apply key_before_None.
Qed.

Lemma insert_index_last n k v o :
  array_index k = Some n -> Forall (fun k' => key_before k' k) o.*1 ->
  insert_index n k v o = o ++ [(k, v)].
Proof.
  intros Hk. induction o as [|[k' v'] o IH]; [done|].
  simpl. intros [H1 H2]%Forall_cons. unfold key_before in H1. rewrite Hk in H1.
  destruct (array_index k') as [m|]; [|done].
  apply N.ltb_lt in H1. rewrite H1. by rewrite IH.
Qed.

(** Defining the property that comes last in key order appends it. *)
Lemma set_prop_last o k v :
  well_formed (o ++ [(k, v)]) -> set_prop o k v = o ++ [(k, v)].
Proof.
  intros [Hnd Hord]. rewrite fmap_app in Hnd, Hord. simpl in Hnd, Hord.
  apply NoDup_app in Hnd as (_ & Hnot & _).
  apply ordered_keys_app_inv in Hord as [_ Hall].
  unfold set_prop.
  assert (has_key k o = false) as ->.
  { apply has_key_false. intros Hin. apply (Hnot _ Hin). by left. }
  destruct (array_index k) as [n|] eqn:Ek; [|done].
  by apply insert_index_last.
Qed.

End Keys.

(** ** What [JSON.parse] returns, and what the filter loop makes of it *)

Section Normalizer.

(** Every object [JSON.parse] builds has distinct keys in key order. *)
Lemma parse_well_formed fuel :
  (forall s o r, parse_value fuel s = Parsed (VObj o) r -> well_formed o)
  /\ (forall s acc o r, parse_elements fuel s acc = Parsed (VObj o) r -> False)
  /\ (forall s acc v r, well_formed acc -> parse_members fuel s acc = Parsed v r ->
        exists o, v = VObj o /\ well_formed o).
Proof.
  induction fuel as [|fuel (IHv & IHe & IHm)]; [by split; [|split]|].
  split; [|split].
  - intros s o r H. simpl in H. unfold parse_keyword in H.
    repeat (case_match; simplify_eq);
      try (by split; [constructor|]);
      try (by exfalso; eapply IHe).
    match goal with
    | H : parse_members _ _ _ = Parsed _ _ |- _ =>
        apply IHm in H as (o' & ? & ?); [by simplify_eq|by split; [constructor|]]
    end.
  - intros s acc o r H. simpl in H.
    repeat (case_match; simplify_eq). by eapply IHe.
  - intros s acc v r Hacc H. simpl in H.
    repeat (case_match; simplify_eq).
    + eapply IHm; [|done]. by apply set_prop_well_formed.
    + eexists. split; [done|]. by apply set_prop_well_formed.
Qed.

Lemma JSON_parse_well_formed text o :
  JSON_parse text = Some (VObj o) -> well_formed o.
Proof.
  unfold JSON_parse. intros H. repeat (case_match; simplify_eq).
  by eapply parse_well_formed.
Qed.

Lemma get_prop_NoDup (o : props) k v :
  NoDup o.*1 -> (k, v) ∈ o -> get_prop k o = Some v.
Proof.
  induction o as [|[k' v'] o IH]; [by intros _ ?%elem_of_nil|].
  csimpl. intros [Hnot Hnd]%NoDup_cons [Heq|Hin]%elem_of_cons.
  - simplify_eq. by rewrite decide_True.
  - rewrite decide_False; [by apply IH|].
    intros ->. apply Hnot. apply list_elem_of_fmap. by exists (k, v).
Qed.

Lemma get_prop_Some (o : props) k v : get_prop k o = Some v -> (k, v) ∈ o.
Proof.
  induction o as [|[k' v'] o IH]; [done|]. simpl.
  case_decide; intros ?; simplify_eq; [left|right; auto].
Qed.

(** On an object the loop visits the entries in order. *)
Lemma cleanOutput_of_fold o :
  NoDup o.*1 -> cleanOutput_of (VObj o) = fold_left keep o empty_object.
Proof.
  intros Hnd. unfold cleanOutput_of, for_in, Object_keys.
  assert (forall l init, (forall k v, (k, v) ∈ l -> get_prop k o = Some v) ->
    fold_left (fun c key =>
      match get (VObj o) key with
      | Some v => if hasOwnProperty (VObj o) key && truthy v then assign c key v else c
      | None => c
      end) l.*1 init = fold_left keep l init) as G.
  { induction l as [|[k v] l IH]; intros init Hl; [done|]. csimpl.
    rewrite IH by (intros; apply Hl; by right).
    f_equal. unfold hasOwnProperty, keep. simpl.
    rewrite (Hl k v) by left. rewrite bool_decide_true by eauto. done. }
  apply G. intros. by apply get_prop_NoDup.
Qed.

Lemma own_keep c kv :
  own (keep c kv) = if kept kv then set_prop (own c) kv.1 kv.2 else own c.
Proof.
  unfold keep, kept, assign. destruct kv as [k v]. simpl.
  destruct (truthy v); [|done]. simpl.
  case_decide.
  - rewrite bool_decide_true by done. simpl. by destruct (typeof_object v).
  - by rewrite bool_decide_false by done.
Qed.

(** The own properties of [cleanOutput]: the truthy entries of the reply
    object, but for an entry named [__proto__], in the order of the reply
    object. *)
Lemma cleanOutput_of_own o :
  well_formed o -> own (cleanOutput_of (VObj o)) = filter (fun kv => kept kv) o.
Proof.
  intros Hwf. rewrite cleanOutput_of_fold by apply Hwf.
  induction o as [|kv o IH] using rev_ind; [done|].
  rewrite fold_left_app. simpl. rewrite own_keep.
  assert (well_formed o) as Ho.
  { eapply well_formed_sublist; [|exact Hwf]. by apply sublist_inserts_r. }
  rewrite IH by done. rewrite filter_app.
  destruct (kept kv) eqn:E.
  - rewrite filter_cons_True by (by rewrite E). rewrite filter_nil.
    destruct kv as [k v]. apply set_prop_last.
    eapply well_formed_sublist; [|exact Hwf].
    apply sublist_app; [apply sublist_filter|by repeat constructor].
  - rewrite filter_cons_False by (rewrite E; by intros []). by rewrite filter_nil, app_nil_r.
Qed.

(** The prototype is replaced only through an entry named [__proto__]. *)
Lemma cleanOutput_of_proto o :
  NoDup o.*1 -> lit "__proto__" ∉ o.*1 ->
  proto (cleanOutput_of (VObj o)) = ObjectPrototype.
Proof.
  intros Hnd. rewrite cleanOutput_of_fold by done.
  induction o as [|[k v] o IH] using rev_ind; [done|].
  rewrite fmap_app, NoDup_app in Hnd. destruct Hnd as (Hnd & _ & _).
  rewrite fmap_app, not_elem_of_app. csimpl. intros [H1 [H2 _]%not_elem_of_cons].
  rewrite fold_left_app. simpl. unfold keep at 1, assign. simpl.
  destruct (truthy v); [|by apply IH].
  rewrite decide_False by (intros Hk; by apply H2). simpl. by apply IH.
Qed.

End Normalizer.

(** ** The service: [generateHdl] and [buildPrompt] *)

Section Service.

Lemma generateHdl_resume_parsed rawText parsedJson :
  JSON_parse (trim rawText) = Some parsedJson ->
  generateHdl_resume (response rawText) = Fulfilled (cleanOutput_of parsedJson).
Proof. intros H. unfold generateHdl_resume, response, normalize. simpl. by rewrite H. Qed.

Lemma elem_of_kept_keys (o : props) key :
  NoDup o.*1 -> key <> lit "__proto__" ->
  key ∈ (filter (fun kv => kept kv) o).*1
  <-> exists v, get_prop key o = Some v /\ truthy v = true.
Proof.
  intros Hnd Hkey. rewrite list_elem_of_fmap. split.
  - intros ([k v] & -> & [Hk Hin]%list_elem_of_filter). simpl.
    exists v. split; [by apply get_prop_NoDup|].
    unfold kept in Hk. simpl in Hk. by destruct (truthy v).
  - intros (v & Hget & Hv). exists (key, v). split; [done|].
    apply list_elem_of_filter. split; [|by apply get_prop_Some].
    unfold kept. simpl. rewrite Hv, bool_decide_false by done. done.
Qed.

(** C1, as the code has it: for every reply that parses to an object, and
    every key other than [__proto__], the object [generateHdl] returns has the
    key exactly when the reply object has it with a truthy value, of whatever
    type; and the value it holds under a key is the reply's. *)
Theorem generateHdl_keeps_truthy_entries rawText o key :
  JSON_parse (trim rawText) = Some (VObj o) ->
  key <> lit "__proto__" ->
  exists cleanOutput,
    generateHdl_resume (response rawText) = Fulfilled cleanOutput
    /\ (key ∈ Object_keys (own cleanOutput)
        <-> exists v, get (VObj o) key = Some v /\ truthy v = true)
    /\ (forall v, get_prop key (own cleanOutput) = Some v -> get (VObj o) key = Some v).
Proof.
  intros Hparse Hkey. exists (cleanOutput_of (VObj o)).
  pose proof (JSON_parse_well_formed _ _ Hparse) as Hwf.
  split; [by apply generateHdl_resume_parsed|].
  rewrite cleanOutput_of_own by done. unfold Object_keys. simpl. split.
  - apply elem_of_kept_keys; [apply Hwf|done].
  - intros v [_ Hin]%get_prop_Some%list_elem_of_filter.
    apply get_prop_NoDup; [apply Hwf|done].
Qed.

Lemma generateHdl_keeps_truthy_entries_witness :
  exists cleanOutput,
    generateHdl_resume (response mixed_reply) = Fulfilled cleanOutput
    /\ (lit "testbench" ∈ Object_keys (own cleanOutput)
        <-> exists v, get (VObj mixed_object) (lit "testbench") = Some v /\ truthy v = true)
    /\ (forall v, get_prop (lit "testbench") (own cleanOutput) = Some v ->
        get (VObj mixed_object) (lit "testbench") = Some v).
Proof.
  apply (generateHdl_keeps_truthy_entries mixed_reply mixed_object (lit "testbench")).
  - vm_compute. reflexivity.
  - vm_compute. discriminate.
Defined.

(** C1 as stated fails: on the reply with [rtlCode] a record, [testbench]
    [true] and [testCases] [null], the returned object holds [testbench],
    whose value is truthy and not of object type, beside [rtlCode]. *)
Lemma generateHdl_keeps_truthy_non_object :
  generateHdl_resume (response mixed_reply)
  = Fulfilled {| proto := ObjectPrototype;
                 own := [(lit "rtlCode", sample_file); (lit "testbench", VBool true)] |}
  /\ typeof_object (VBool true) = false.
Proof. vm_compute. done. Qed.

(** C3: given the reply text, [generateHdl] rejects, with its one fixed
    [Error], exactly when [JSON.parse] refuses the trimmed text; on a text it
    accepts, object or not, nothing throws and the filtered object is
    returned. *)
Theorem generateHdl_rejects_iff_invalid_JSON rawText :
  (generateHdl_resume (response rawText) = Rejected (JsError generic_failure)
   <-> JSON_parse (trim rawText) = None)
  /\ (forall parsedJson, JSON_parse (trim rawText) = Some parsedJson ->
      generateHdl_resume (response rawText) = Fulfilled (cleanOutput_of parsedJson)).
Proof.
  split; [|apply generateHdl_resume_parsed].
  unfold generateHdl_resume, response, normalize. simpl.
  destruct (JSON_parse (trim rawText)); simpl; split; done.
Qed.

Lemma generateHdl_rejects_iff_invalid_JSON_witness :
  generateHdl_resume (response (lit "not json")) = Rejected (JsError generic_failure)
  /\ generateHdl_resume (response clean_reply)
     = Fulfilled {| proto := ObjectPrototype;
                    own := [(lit "rtlCode", sample_file); (lit "testbench", sample_file)] |}.
Proof.
  split.
  - apply (proj1 (generateHdl_rejects_iff_invalid_JSON (lit "not json"))).
    vm_compute. reflexivity.
  - rewrite (proj2 (generateHdl_rejects_iff_invalid_JSON clean_reply)
               (VObj [(lit "rtlCode", sample_file); (lit "testbench", sample_file)])).
    + vm_compute. reflexivity.
    + vm_compute. reflexivity.
Defined.

Lemma is_HdlFile_truthy v : is_HdlFile v = true -> truthy v = true.
Proof. by destruct v. Qed.

(** On a reply whose entries are all file records and none of which is named
    [__proto__], the returned object is the reply object: same keys, same
    order, same values. *)
Lemma generateHdl_identity_on_clean_reply rawText o :
  JSON_parse (trim rawText) = Some (VObj o) ->
  Forall (fun kv => is_HdlFile kv.2 = true) o ->
  lit "__proto__" ∉ Object_keys o ->
  generateHdl_resume (response rawText)
  = Fulfilled {| proto := ObjectPrototype; own := o |}.
Proof.
  intros Hparse Hfiles Hproto.
  pose proof (JSON_parse_well_formed _ _ Hparse) as Hwf.
  rewrite (generateHdl_resume_parsed _ _ Hparse). f_equal.
  pose proof (cleanOutput_of_own o Hwf) as Hown.
  pose proof (cleanOutput_of_proto o (proj1 Hwf) Hproto) as Hp.
  destruct (cleanOutput_of (VObj o)) as [p ownp]. simpl in *. subst. f_equal.
  clear Hwf Hparse. induction o as [|[k v] o IH]; [done|].
  apply Forall_cons in Hfiles as [Hv Hfiles].
  unfold Object_keys in Hproto. csimpl in Hproto.
  apply not_elem_of_cons in Hproto as [Hk Hproto].
  rewrite filter_cons_True.
  - f_equal. by apply IH.
  - unfold kept. simpl. rewrite is_HdlFile_truthy by done.
    by rewrite bool_decide_false.
Qed.

Lemma generateHdl_identity_on_clean_reply_witness :
  generateHdl_resume (response clean_reply)
  = Fulfilled {| proto := ObjectPrototype;
                 own := [(lit "rtlCode", sample_file); (lit "testbench", sample_file)] |}.
Proof.
  apply (generateHdl_identity_on_clean_reply clean_reply
           [(lit "rtlCode", sample_file); (lit "testbench", sample_file)]).
  - vm_compute. reflexivity.
  - repeat constructor.
  - vm_compute. intros H. repeat (inversion H as [|? ? ? H']; clear H; rename H' into H).
Defined.

(** C5 fails on the code: the reply whose one entry is a well-formed record
    named [__proto__] is clean, and the returned object has no own property
    at all; the assignment replaced its prototype instead. *)
Lemma generateHdl_loses_proto_entry :
  JSON_parse (trim proto_reply) = Some (VObj [(lit "__proto__", sample_file)])
  /\ is_HdlFile sample_file = true
  /\ generateHdl_resume (response proto_reply)
     = Fulfilled {| proto := ProtoValue sample_file; own := [] |}.
Proof. vm_compute. done. Qed.

Lemma occurs_at_middle (before needle after : jsstring) :
  occurs_at needle (before ++ needle ++ after) (length before).
Proof. unfold occurs_at. by rewrite drop_app_length, take_app_length. Qed.















End Service.

(** ** The component: [generate], the rotation timer, [toggleDeliverable] *)

Section Component.

Lemma generate_blocked w :
  isLoading (app w) = true \/ trim (description (app w)) = [] -> generate w = w.
Proof.
  unfold generate. intros [-> | ->]; [done|].
  rewrite bool_decide_true by done. by rewrite orb_true_r.
Qed.

Lemma generate_accepted w :
  accepted w ->
  generate w
  = {| app := set_generatedOutput None (set_error None (app (startLoading w)));
       intervals := intervals w ++ [(next_handle w, 0)];
       next_handle := Pos.succ (next_handle w);
       next_address := next_address w;
       requests := requests w
                   ++ [generateHdl_request (description (app w)) (hdlLanguage (app w))
                         (selectedDeliverables (app w))];
       awaiting := S (awaiting w) |}.
Proof.
  intros [HL HD]. unfold generate. rewrite HL, bool_decide_false by done. done.
Qed.

(** C6: a call while [isLoading] holds, or on a description that is empty or
    holds white space only, changes nothing and makes no call to the remote
    model; so of two calls in a row, the first of them accepted, the second is
    dropped, and exactly one request has gone out. *)
Theorem generate_guard w :
  (isLoading (app w) = true \/ forallb is_white_space (description (app w)) = true ->
   generate w = w)
  /\ (isLoading (app w) = false ->
      forallb is_white_space (description (app w)) = false ->
      generate (generate w) = generate w
      /\ requests (generate (generate w))
         = requests w
           ++ [generateHdl_request (description (app w)) (hdlLanguage (app w))
                 (selectedDeliverables (app w))]).
Proof.
  split.
  - intros [H|H%trim_nil_iff]; apply generate_blocked; auto.
  - intros HL HD.
    assert (accepted w) as Hacc.
    { split; [done|]. intros E%trim_nil_iff. congruence. }
    assert (generate (generate w) = generate w) as ->.
    { apply generate_blocked. left. by rewrite generate_accepted. }
    split; [done|]. by rewrite generate_accepted.
Qed.

Lemma generate_guard_witness :
  generate (with_app (set_description (lit "  ")) initial_world)
  = with_app (set_description (lit "  ")) initial_world
  /\ generate (generate initial_world) = generate initial_world
  /\ requests (generate (generate initial_world))
     = requests initial_world
       ++ [generateHdl_request (description (app initial_world))
             (hdlLanguage (app initial_world))
             (selectedDeliverables (app initial_world))].
Proof.
  split.
  - apply (proj1 (generate_guard (with_app (set_description (lit "  ")) initial_world))).
    right. reflexivity.
  - apply (proj2 (generate_guard initial_world)).
    + reflexivity.
    + vm_compute. reflexivity.
Defined.

(** What no event but the settling of the remote call changes. *)
Lemma step_while_loading w e :
  is_settlement e = false -> isLoading (app w) = true ->
  isLoading (app (step w e)) = true
  /\ generatedOutput (app (step w e)) = generatedOutput (app w)
  /\ error (app (step w e)) = error (app w)
  /\ awaiting (step w e) = awaiting w
  /\ requests (step w e) = requests w.
Proof.
  intros He HL. destruct e; try discriminate; simpl.
  - by rewrite generate_blocked by (by left).
  - unfold tick. by repeat case_match.
  - unfold toggleDeliverable. by repeat case_match.
  - done.
  - done.
  - done.
Qed.

Lemma run_while_loading es : forall w,
  forallb (fun e => negb (is_settlement e)) es = true -> isLoading (app w) = true ->
  isLoading (app (run w es)) = true
  /\ generatedOutput (app (run w es)) = generatedOutput (app w)
  /\ error (app (run w es)) = error (app w)
  /\ awaiting (run w es) = awaiting w
  /\ requests (run w es) = requests w.
Proof.
  induction es as [|e es IH]; intros w Hes HL; [done|].
  simpl in Hes. apply andb_prop in Hes as [He Hes]. apply negb_true_iff in He.
  destruct (step_while_loading w e He HL) as (H1 & H2 & H3 & H4 & H5).
  destruct (IH (step w e) Hes H1) as (I1 & I2 & I3 & I4 & I5).
  unfold run in *. simpl. repeat split; congruence.
Qed.

Lemma generate_resume_rejected reason w n :
  awaiting w = S n -> forall remote, generateHdl_resume remote = Rejected reason ->
  app (generate_resume remote w) = set_isLoading false (on_error reason (app w)).
Proof. intros Hn remote Hr. unfold generate_resume. by rewrite Hn, Hr. Qed.

(** C7: an accepted call has cleared the error and the result by the time it
    is suspended at the [await]; the result stays cleared whatever else happens
    while the call is pending, and is still cleared after the call failed. *)
Theorem generate_clears_error_and_result w es remote reason :
  isLoading (app w) = false -> trim (description (app w)) <> [] ->
  forallb (fun e => negb (is_settlement e)) es = true ->
  generateHdl_resume remote = Rejected reason ->
  error (app (generate w)) = None
  /\ generatedOutput (app (generate w)) = None
  /\ awaiting (generate w) = S (awaiting w)
  /\ generatedOutput (app (run (generate w) es)) = None
  /\ generatedOutput (app (generate_resume remote (run (generate w) es))) = None.
Proof.
  intros HL HD Hes Hr.
  destruct (run_while_loading es (generate w) Hes) as (_ & H2 & _ & H4 & _).
  { by rewrite generate_accepted. }
  rewrite generate_accepted in * by done. simpl in *.
  repeat split; try done.
  erewrite generate_resume_rejected; [|exact H4|exact Hr]. simpl. done.
Qed.

Lemma generate_clears_error_and_result_witness :
  error (app (generate world_with_result)) = None
  /\ generatedOutput (app (generate world_with_result)) = None
  /\ awaiting (generate world_with_result) = S (awaiting world_with_result)
  /\ generatedOutput
       (app (run (generate world_with_result) [TimerFires 2; CallGenerate])) = None
  /\ generatedOutput
       (app (generate_resume (response (lit "not json"))
               (run (generate world_with_result) [TimerFires 2; CallGenerate]))) = None.
Proof.
  apply (generate_clears_error_and_result world_with_result [TimerFires 2; CallGenerate]
           (response (lit "not json")) (JsError generic_failure)).
  - reflexivity.
  - vm_compute. discriminate.
  - reflexivity.
  - vm_compute. reflexivity.
Defined.

(** Whatever the remote failure was, [generateHdl] rejects with its own fixed
    error. *)
Lemma generateHdl_resume_rejection reason :
  generateHdl_resume (Rejected reason) = Rejected (JsError generic_failure).
Proof. done. Qed.

(** C4, as the code has it: when the remote call rejects, for whatever reason
    and with whatever message, the error shown is the fixed label followed by
    the fixed message of [generateHdl], not the message of the remote failure.
    The [catch] clause of [generate] shows the message of the [Error] it
    catches and the fallback text for a caught value that is no [Error]. *)
Theorem remote_rejection_surfaces_generic_message w reason :
  awaiting w <> 0 ->
  error (app (generate_resume (Rejected reason) w))
  = Some (failure_label ++ generic_failure)
  /\ (forall err a,
      error (on_error err a)
      = Some (failure_label
              ++ match err with
                 | JsError message => message
                 | NotError _ => unknown_error
                 end)).
Proof.
  intros Hn. split; [|done]. destruct (awaiting w) as [|n] eqn:E; [done|].
  by rewrite (generate_resume_rejected (JsError generic_failure) w n E (Rejected reason)
                (generateHdl_resume_rejection reason)).
Qed.

Lemma remote_rejection_surfaces_generic_message_witness :
  error (app (generate_resume (Rejected (NotError (VStr (lit "timeout"))))
                (generate initial_world)))
  = Some (failure_label ++ generic_failure)
  /\ (forall err a,
      error (on_error err a)
      = Some (failure_label
              ++ match err with
                 | JsError message => message
                 | NotError _ => unknown_error
                 end)).
Proof.
  apply (remote_rejection_surfaces_generic_message (generate initial_world)
           (NotError (VStr (lit "timeout")))).
  vm_compute. discriminate.
Defined.

(** C4 as stated fails: the remote call rejects with an [Error] whose message
    is [API key not valid]; the error shown does not include that message. *)
Lemma remote_message_not_surfaced :
  error (app (generate_resume (Rejected (JsError (lit "API key not valid")))
                (generate initial_world)))
  = Some (lit "Failed to generate HDL content. The AI model failed to generate a valid response.")
  /\ includes
       (lit "Failed to generate HDL content. The AI model failed to generate a valid response.")
       (lit "API key not valid") = false.
Proof. vm_compute. done. Qed.

(** The success exit on a result whose first key is a non-empty string, and
    on a result without keys. *)
Lemma on_result_activeTab result a :
  generatedOutput (on_result result a) = Some result
  /\ (forall firstKey, head (Object_keys (own result)) = Some firstKey ->
      firstKey <> [] -> activeTab (on_result result a) = Some firstKey)
  /\ (Object_keys (own result) = [] -> activeTab (on_result result a) = activeTab a).
Proof.
  unfold on_result. repeat split.
  - by repeat case_match.
  - intros k -> Hk. by rewrite bool_decide_false.
  - by intros ->.
Qed.

(** C8 fails on the code: after a first generation the tab [rtlCode] is
    active; the result of a second one has a single key, the empty string; the
    result is stored, and the active tab is left at [rtlCode], which is no key
    of the result. *)
Lemma generate_empty_first_key_leaves_activeTab :
  activeTab (app world_with_result) = Some (lit "rtlCode")
  /\ generatedOutput
       (app (generate_resume (response empty_key_reply) (generate world_with_result)))
     = Some {| proto := ObjectPrototype; own := [([], sample_file)] |}
  /\ activeTab
       (app (generate_resume (response empty_key_reply) (generate world_with_result)))
     = Some (lit "rtlCode").
Proof. vm_compute. done. Qed.

(** [toggleDeliverable] writes the [deliverables] signal and nothing else. *)
Lemma toggleDeliverable_others index w :
  isLoading (app (default w (toggleDeliverable index w))) = isLoading (app w)
  /\ loadingInterval (app (default w (toggleDeliverable index w)))
     = loadingInterval (app w)
  /\ intervals (default w (toggleDeliverable index w)) = intervals w
  /\ awaiting (default w (toggleDeliverable index w)) = awaiting w.
Proof. unfold toggleDeliverable. by repeat case_match. Qed.

Lemma rotation_invariant_initial : rotation_invariant initial_world.
Proof. by split. Qed.

Lemma rotation_invariant_step w e :
  rotation_invariant w -> rotation_invariant (step w e).
Proof.
  unfold rotation_invariant. intros H.
  destruct (isLoading (app w)) eqn:HL.
  - destruct H as (Hn & h & i & Hh & Hi). destruct e; simpl.
    + rewrite generate_blocked by (by left). rewrite HL. eauto.
    + unfold generate_resume. rewrite Hn. simpl.
      assert (forall a, loadingInterval a = Some h ->
        match loadingInterval a with
        | Some h0 => clearInterval h0 (intervals w)
        | None => intervals w
        end = []) as G.
      { intros a ->. rewrite Hi. unfold clearInterval.
        by rewrite filter_cons_False, filter_nil by (simpl; tauto). }
      split; [done|]. apply G.
      destruct (generateHdl_resume remote); unfold on_result, on_error;
        by repeat case_match.
    + unfold tick. rewrite Hi. simpl. case_decide; simpl.
      * simpl in *. subst. rewrite HL. eauto.
      * rewrite HL. eauto.
    + destruct (toggleDeliverable_others index w) as (-> & -> & -> & ->).
      rewrite HL. eauto.
    + rewrite HL. eauto.
    + rewrite HL. eauto.
    + rewrite HL. eauto.
  - destruct H as [Hn Hi]. destruct e; simpl.
    + destruct (decide (trim (description (app w)) = [])) as [HD|HD].
      * rewrite generate_blocked by (by right). by rewrite HL.
      * rewrite generate_accepted by done. simpl. rewrite Hn, Hi. eauto.
    + unfold generate_resume. rewrite Hn. by rewrite HL.
    + unfold tick. rewrite Hi. simpl. by rewrite HL.
    + destruct (toggleDeliverable_others index w) as (-> & _ & -> & ->).
      by rewrite HL.
    + by rewrite HL.
    + by rewrite HL.
    + by rewrite HL.
Qed.

(** The invariant holds in every state the component can reach. *)
Lemma rotation_invariant_run es : forall w,
  rotation_invariant w -> rotation_invariant (run w es).
Proof.
  induction es as [|e es IH]; intros w H; [done|].
  apply IH. by apply rotation_invariant_step.
Qed.

(** In every state the component can reach, at most one invocation of
    [generate] is suspended; exactly one rotation task is registered while
    [isLoading] holds, and none otherwise. *)
Lemma reachable_rotation_invariant es : rotation_invariant (run initial_world es).
Proof. apply rotation_invariant_run, rotation_invariant_initial. Qed.

Lemma generate_resume_stops remote w :
  rotation_invariant w -> isLoading (app w) = true ->
  isLoading (app (generate_resume remote w)) = false
  /\ intervals (generate_resume remote w) = []
  /\ awaiting (generate_resume remote w) = 0.
Proof.
  intros Hinv HL.
  pose proof (rotation_invariant_step w (RemoteSettles remote) Hinv) as H'.
  simpl in H'. unfold rotation_invariant in Hinv. rewrite HL in Hinv.
  destruct Hinv as (Hn & _).
  assert (isLoading (app (generate_resume remote w)) = false) as E.
  { unfold generate_resume. by rewrite Hn. }
  unfold rotation_invariant in H'. rewrite E in H'. by destruct H'.
Qed.

(** C9: take any state the component can reach and an accepted call of
    [generate] there.  It registers the rotation task; the task is still
    registered, and the busy flag set, whatever happens while the call is
    pending; and once the remote call has settled, fulfilled or rejected, the
    busy flag is down and no recurring task is left. *)
Theorem generate_stops_rotation before pending remote :
  isLoading (app (run initial_world before)) = false ->
  trim (description (app (run initial_world before))) <> [] ->
  forallb (fun e => negb (is_settlement e)) pending = true ->
  (exists i, intervals (run (generate (run initial_world before)) pending)
             = [(next_handle (run initial_world before), i)])
  /\ isLoading (app (run (generate (run initial_world before)) pending)) = true
  /\ isLoading
       (app (generate_resume remote (run (generate (run initial_world before)) pending)))
     = false
  /\ intervals (generate_resume remote (run (generate (run initial_world before)) pending))
     = [].
Proof.
  intros HL HD Hes. set (w := run initial_world before) in *.
  assert (rotation_invariant w) as Hw.
  { apply rotation_invariant_run, rotation_invariant_initial. }
  assert (rotation_invariant (generate w)) as Hg.
  { apply (rotation_invariant_step w CallGenerate Hw). }
  assert (isLoading (app (generate w)) = true) as HLg.
  { by rewrite generate_accepted. }
  pose proof (rotation_invariant_run pending _ Hg) as Hp.
  destruct (run_while_loading pending (generate w) Hes HLg) as (HLp & _).
  destruct (generate_resume_stops remote _ Hp HLp) as (S1 & S2 & _).
  repeat split; try done.
  clear S1 S2. revert Hp HLp.
  assert (forall es w0 h i,
    forallb (fun e => negb (is_settlement e)) es = true ->
    isLoading (app w0) = true -> intervals w0 = [(h, i)] ->
    exists j, intervals (run w0 es) = [(h, j)]) as G.
  { clear. induction es as [|e es IH]; intros w0 h i Hes HL0 Hi; [by exists i|].
    simpl in Hes. apply andb_prop in Hes as [He Hes]. apply negb_true_iff in He.
    destruct (step_while_loading w0 e He HL0) as (HL1 & _).
    assert (exists j, intervals (step w0 e) = [(h, j)]) as [j Hj].
    { destruct e; try discriminate; simpl.
      - rewrite generate_blocked by (by left). eauto.
      - unfold tick. rewrite Hi. simpl. case_decide; simpl in *; subst; eauto.
      - destruct (toggleDeliverable_others index w0) as (_ & _ & -> & _). eauto.
      - eauto.
      - eauto.
      - eauto. }
    simpl. by eapply IH. }
  intros _ _. eapply G; [done|done|].
  rewrite generate_accepted by done. simpl.
  unfold rotation_invariant in Hw. rewrite HL in Hw. destruct Hw as [_ ->]. done.
Qed.

Lemma generate_stops_rotation_witness :
  (exists i,
     intervals
       (run (generate (run initial_world [CallToggleDeliverable 2]))
          [TimerFires 1; TimerFires 1; CallGenerate])
     = [(next_handle (run initial_world [CallToggleDeliverable 2]), i)])
  /\ isLoading
       (app (run (generate (run initial_world [CallToggleDeliverable 2]))
               [TimerFires 1; TimerFires 1; CallGenerate])) = true
  /\ isLoading
       (app (generate_resume (Rejected (JsError (lit "offline")))
               (run (generate (run initial_world [CallToggleDeliverable 2]))
                  [TimerFires 1; TimerFires 1; CallGenerate]))) = false
  /\ intervals
       (generate_resume (Rejected (JsError (lit "offline")))
          (run (generate (run initial_world [CallToggleDeliverable 2]))
             [TimerFires 1; TimerFires 1; CallGenerate])) = [].
Proof.
  apply (generate_stops_rotation [CallToggleDeliverable 2]
           [TimerFires 1; TimerFires 1; CallGenerate]
           (Rejected (JsError (lit "offline")))).
  - reflexivity.
  - vm_compute. discriminate.
  - reflexivity.
Defined.

(** C10: for an index within the list, [toggleDeliverable] stores a list of
    the same length that holds, at that index, a new object with the same [id]
    and [name] and the negated [checked], and at every other index the very
    object that was there; no other signal is written. *)
Theorem toggleDeliverable_frame w index :
  (0 <= index < Z.of_nat (length (deliverables (app w))))%Z ->
  exists w' a d,
    toggleDeliverable index w = Some w'
    /\ deliverables (app w) !! Z.to_nat index = Some (a, d)
    /\ deliverables (app w') !! Z.to_nat index
       = Some (next_address w,
               {| id := id d; name := name d; checked := negb (checked d) |})
    /\ (forall j, j <> Z.to_nat index ->
        deliverables (app w') !! j = deliverables (app w) !! j)
    /\ length (deliverables (app w')) = length (deliverables (app w))
    /\ app w' = set_deliverables (deliverables (app w')) (app w).
Proof.
  intros Hi. unfold toggleDeliverable.
  destruct (Z.ltb_spec index 0) as [?|_]; [lia|].
  destruct (lookup_lt_is_Some_2 (deliverables (app w)) (Z.to_nat index)) as [[a d] Hd];
    [lia|].
  rewrite Hd. eexists _, a, d. split; [done|]. split; [done|].
  cbn [app deliverables set_deliverables]. split; [|split; [|split]].
  - apply list_lookup_insert_eq. lia.
  - intros j Hj. by apply list_lookup_insert_ne.
  - apply length_insert.
  - done.
Qed.

Lemma toggleDeliverable_frame_witness :
  exists w' a d,
    toggleDeliverable 2 initial_world = Some w'
    /\ deliverables (app initial_world) !! Z.to_nat 2 = Some (a, d)
    /\ deliverables (app w') !! Z.to_nat 2
       = Some (next_address initial_world,
               {| id := id d; name := name d; checked := negb (checked d) |})
    /\ (forall j, j <> Z.to_nat 2 ->
        deliverables (app w') !! j = deliverables (app initial_world) !! j)
    /\ length (deliverables (app w')) = length (deliverables (app initial_world))
    /\ app w' = set_deliverables (deliverables (app w')) (app initial_world).
Proof.
  apply (toggleDeliverable_frame initial_world 2). simpl. lia.
Defined.

End Component.

(** ** More on the service: what [generateHdl] can return *)

Section ServiceMore.

Lemma replace_prop_Forall (Q : jsstring * value -> Prop) k v o :
  Forall Q o -> Q (k, v) -> Forall Q (replace_prop k v o).
Proof.
  intros Ho Hv. induction o as [|[k' v'] o IH]; [done|].
  apply Forall_cons in Ho as [H1 H2]. simpl.
  case_decide; subst; constructor; auto.
Qed.

Lemma insert_index_Forall (Q : jsstring * value -> Prop) n k v o :
  Forall Q o -> Q (k, v) -> Forall Q (insert_index n k v o).
Proof.
  intros Ho Hv. induction o as [|[k' v'] o IH]; [by repeat constructor|].
  pose proof Ho as [H1 H2]%Forall_cons. simpl.
  repeat case_match; repeat constructor; auto.
Qed.

(** What holds of every property of an object and of a new value holds of
    every property after the value is stored. *)
Lemma set_prop_Forall (Q : jsstring * value -> Prop) o k v :
  Forall Q o -> Q (k, v) -> Forall Q (set_prop o k v).
Proof.
  intros Ho Hv. unfold set_prop. repeat case_match.
  - by apply replace_prop_Forall.
  - by apply insert_index_Forall.
  - apply Forall_app. split; [done|by repeat constructor].
Qed.

Lemma cleanOutput_of_clean parsedJson :
  Forall clean_entry (own (cleanOutput_of parsedJson))
  /\ well_formed (own (cleanOutput_of parsedJson)).
Proof.
  unfold cleanOutput_of.
  assert (Forall clean_entry (own empty_object) /\ well_formed (own empty_object)) as H0.
  { split; [constructor|]. by split; [constructor|]. }
  revert H0. generalize empty_object. generalize (for_in parsedJson).
  induction l as [|key l IH]; intros c Hc; [done|]. simpl. apply IH.
  destruct (get parsedJson key) as [v|]; [|done].
  destruct (hasOwnProperty parsedJson key && truthy v) eqn:E; [|done].
  apply andb_prop in E as [_ Hv]. destruct Hc as [Hc1 Hc2].
  unfold assign. case_decide as Hk.
  - by destruct (typeof_object v).
  - simpl. split; [by apply set_prop_Forall|by apply set_prop_well_formed].
Qed.

Lemma generateHdl_resume_clean remote cleanOutput :
  generateHdl_resume remote = Fulfilled cleanOutput ->
  Forall clean_entry (own cleanOutput) /\ well_formed (own cleanOutput).
Proof.
  unfold generateHdl_resume, normalize. intros H.
  assert (exists parsedJson, cleanOutput = cleanOutput_of parsedJson) as [v ->].
  { destruct remote as [r|]; [|done]. destruct (text r); [|done]. simpl in H.
    destruct (JSON_parse _) as [v|]; [|done]. simpl in H. exists v. congruence. }
  apply cleanOutput_of_clean.
Qed.

(** Whatever the remote call resolves to, an object [generateHdl] returns
    holds truthy values only, has no own property named [__proto__], and has
    its keys distinct and in key order. *)
Theorem generateHdl_returns_clean_object remote cleanOutput :
  generateHdl_resume remote = Fulfilled cleanOutput ->
  Forall (fun kv => truthy kv.2 = true) (own cleanOutput)
  /\ (lit "__proto__" ∉ Object_keys (own cleanOutput))
  /\ well_formed (own cleanOutput).
Proof.
  intros [Hc Hwf]%generateHdl_resume_clean. split; [|split; [|done]].
  - eapply Forall_impl; [exact Hc|]. by intros kv [? _].
  - unfold Object_keys. intros ([k x] & Hk & Hin)%list_elem_of_fmap. simpl in Hk.
    eapply Forall_forall in Hc; [|exact Hin]. destruct Hc as [_ Hne]. by apply Hne.
Qed.

Lemma generateHdl_returns_clean_object_witness :
  Forall (fun kv => truthy kv.2 = true)
    [(lit "rtlCode", sample_file); (lit "testbench", VBool true)]
  /\ (lit "__proto__"
      ∉ Object_keys [(lit "rtlCode", sample_file); (lit "testbench", VBool true)])
  /\ well_formed [(lit "rtlCode", sample_file); (lit "testbench", VBool true)].
Proof.
  apply (generateHdl_returns_clean_object (response mixed_reply)
           {| proto := ObjectPrototype;
              own := [(lit "rtlCode", sample_file); (lit "testbench", VBool true)] |}).
  vm_compute. reflexivity.
Defined.

End ServiceMore.

(** ** More on the component: what every reachable state satisfies *)

Section ComponentMore.

Lemma generate_resume_app remote w n :
  awaiting w = S n ->
  app (generate_resume remote w)
  = set_isLoading false
      match generateHdl_resume remote with
      | Fulfilled result => on_result result (app w)
      | Rejected err => on_error err (app w)
      end.
Proof. intros Hn. unfold generate_resume. by rewrite Hn. Qed.

Lemma generateHdl_resume_error remote err :
  generateHdl_resume remote = Rejected err -> err = JsError generic_failure.
Proof.
  unfold generateHdl_resume. intros H. repeat case_match; congruence.
Qed.

Lemma on_result_fields result a :
  error (on_result result a) = error a
  /\ isLoading (on_result result a) = isLoading a
  /\ deliverables (on_result result a) = deliverables a
  /\ description (on_result result a) = description a
  /\ generatedOutput (on_result result a) = Some result.
Proof. unfold on_result. by repeat case_match. Qed.

(** A call is pending only while [isLoading] holds. *)
Lemma rotation_invariant_pending w n :
  rotation_invariant w -> awaiting w = S n -> isLoading (app w) = true.
Proof.
  unfold rotation_invariant. destruct (isLoading (app w)); [done|].
  intros [H _] Hn. congruence.
Qed.

Lemma display_invariant_step w e :
  rotation_invariant w -> display_invariant w -> display_invariant (step w e).
Proof.
  intros Hrot [H1 H2]. destruct e; simpl.
  - unfold generate. case_match; [done|]. by split; [|left].
  - destruct (awaiting w) as [|n] eqn:Hn.
    { unfold generate_resume. by rewrite Hn. }
    destruct (H1 (rotation_invariant_pending w n Hrot Hn)) as [He Ho].
    unfold display_invariant. rewrite (generate_resume_app _ _ _ Hn).
    split; [done|].
    destruct (generateHdl_resume remote) as [result|err] eqn:Hr.
    + destruct (on_result_fields result (app w)) as (E & _).
      left. simpl. congruence.
    + apply generateHdl_resume_error in Hr as ->. right. by simpl.
  - unfold tick. repeat case_match; [|done]. split; [apply H1|apply H2].
  - unfold toggleDeliverable. repeat case_match; simpl; by split.
  - by split.
  - by split.
  - by split.
Qed.

(** In every state the component can reach: while a call is pending neither
    an error nor a result is on display; an error and a result are never on
    display together; and the only error text ever shown is the fixed label
    followed by the fixed message of [generateHdl], so the fallback text of
    the [catch] clause is never shown. *)
Theorem reachable_display_invariant es :
  display_invariant (run initial_world es)
  /\ error (app (run initial_world es)) <> Some (failure_label ++ unknown_error).
Proof.
  assert (display_invariant (run initial_world es)) as H.
  { assert (forall w, rotation_invariant w -> display_invariant w ->
                      display_invariant (run w es)) as G.
    { induction es as [|e es IH]; intros w Hr Hd; [done|].
      apply IH; [by apply rotation_invariant_step|by apply display_invariant_step]. }
    apply G; [apply rotation_invariant_initial|].
    split; [done|by left]. }
  split; [done|]. destruct H as [_ [->|[-> _]]]; [done|].
  vm_compute. discriminate.
Qed.

End ComponentMore.

Section Deliverables.

Lemma selectedDeliverables_contents a :
  selectedDeliverables a
  = map id (filter (fun d => checked d = true) (deliverables a).*2).
Proof.
  unfold selectedDeliverables. induction (deliverables a) as [|[r d] l IH]; [done|].
  csimpl. rewrite !filter_cons. simpl. case_decide; csimpl; by rewrite IH.
Qed.

Lemma sublist_map_filter_ids (ds : list Deliverable) :
  sublist (map id (filter (fun d => checked d = true) ds)) (map id ds).
Proof. apply fmap_sublist, sublist_filter. Qed.

Lemma ids_of_contents (l : list DeliverableRef) :
  map id l.*2 = (map (fun r : DeliverableRef => (id r.2, name r.2)) l).*1.
Proof. induction l as [|[a d] l IH]; [done|]. csimpl. by rewrite IH. Qed.

Lemma toggleDeliverable_Some index w w' :
  toggleDeliverable index w = Some w' ->
  exists a d,
    (0 <= index)%Z
    /\ deliverables (app w) !! Z.to_nat index = Some (a, d)
    /\ deliverables (app w')
       = <[Z.to_nat index := (next_address w,
             {| id := id d; name := name d; checked := negb (checked d) |})]>
           (deliverables (app w))
    /\ next_address w' = Pos.succ (next_address w).
Proof.
  unfold toggleDeliverable. destruct (Z.ltb_spec index 0); [done|].
  destruct (deliverables (app w) !! Z.to_nat index) as [[a d]|] eqn:E; [|done].
  intros [= <-]. exists a, d. done.
Qed.

Lemma deliverables_invariant_toggle index w w' :
  deliverables_invariant w -> toggleDeliverable index w = Some w' ->
  deliverables_invariant w'.
Proof.
  intros (Hids & Hnd & Hlt) (a & d & _ & Hd & Hnew & Hnext)%toggleDeliverable_Some.
  unfold deliverables_invariant. rewrite Hnew, Hnext. clear Hnew Hnext.
  assert (Z.to_nat index < length (deliverables (app w))) as Hi.
  { by eapply lookup_lt_Some. }
  assert (next_address w ∉ (deliverables (app w)).*1) as Hfresh.
  { intros ([a' d'] & Ha & Hin)%list_elem_of_fmap. simpl in Ha. subst a'.
    eapply Forall_forall in Hlt; [|exact Hin]. simpl in Hlt. lia. }
  split; [|split].
  - rewrite <- Hids. rewrite list_fmap_insert. simpl.
    apply list_insert_id. by rewrite list_lookup_fmap, Hd.
  - rewrite list_fmap_insert. simpl.
    rewrite insert_take_drop by (by rewrite length_fmap).
    rewrite <- (take_drop_middle _ _ a) in Hnd, Hfresh
      by (by rewrite list_lookup_fmap, Hd).
    apply NoDup_app in Hnd as (N1 & N2 & N3). apply NoDup_cons in N3 as [N3 N4].
    apply not_elem_of_app in Hfresh as [F1 F2]. apply not_elem_of_cons in F2 as [_ F2].
    apply NoDup_app. split; [done|]. split.
    + intros x Hx [->|Hx']%elem_of_cons; [done|]. apply (N2 x Hx). by right.
    + by constructor.
  - apply Forall_insert.
    + eapply Forall_impl; [exact Hlt|]. intros [a' d'] ?. simpl in *. lia.
    + simpl. lia.
Qed.

Lemma deliverables_invariant_step w e :
  deliverables_invariant w -> deliverables_invariant (step w e).
Proof.
  intros H. destruct e; simpl; try done.
  - unfold generate. case_match; [done|]. exact H.
  - unfold generate_resume. destruct (awaiting w); [done|].
    unfold deliverables_invariant, stopLoading. simpl.
    destruct (generateHdl_resume remote) as [result|err].
    + destruct (on_result_fields result (app w)) as (_ & _ & -> & _). exact H.
    + exact H.
  - unfold tick. repeat case_match; [|done]. exact H.
  - destruct (toggleDeliverable index w) as [w'|] eqn:E; [|done].
    by eapply deliverables_invariant_toggle.
Qed.

Lemma deliverables_invariant_selected w :
  deliverables_invariant w ->
  sublist (selectedDeliverables (app w)) deliverable_ids.
Proof.
  intros (Hids & _ & _). rewrite selectedDeliverables_contents.
  eapply transitivity; [apply sublist_map_filter_ids|].
  rewrite ids_of_contents, Hids. reflexivity.
Qed.

Lemma deliverables_invariant_run es : forall w,
  deliverables_invariant w -> deliverables_invariant (run w es).
Proof.
  induction es as [|e es IH]; intros w Hw; [done|].
  apply IH. by apply deliverables_invariant_step.
Qed.

Lemma deliverables_invariant_initial : deliverables_invariant initial_world.
Proof.
  split; [done|]. split.
  - vm_compute. repeat constructor; intros H;
      repeat (inversion H as [|? ? ? H']; clear H; rename H' into H).
  - repeat constructor.
Qed.

(** In every state the component can reach, the list of deliverables still
    holds the four entries of [availableDeliverables], by [id] and [name] and
    in their order, as distinct objects none of which is the object the next
    [toggleDeliverable] creates; so the identifiers [generate] asks for are
    picked, in order, from the four known ones, and the [default] branch of
    [buildPrompt] is never taken for them. *)
Theorem reachable_deliverables es :
  deliverables_invariant (run initial_world es)
  /\ (next_address (run initial_world es)
      ∉ (deliverables (app (run initial_world es))).*1)
  /\ sublist (selectedDeliverables (app (run initial_world es))) deliverable_ids
  /\ Forall (fun d => forall l, deliverable_phrase l d <> d)
       (selectedDeliverables (app (run initial_world es))).
Proof.
  assert (deliverables_invariant (run initial_world es)) as H.
  { apply deliverables_invariant_run, deliverables_invariant_initial. }
  pose proof (deliverables_invariant_selected _ H) as Hs.
  split; [done|]. split; [|split; [done|]].
  - destruct H as (_ & _ & Hlt).
    intros ([a d] & Ha & Hin)%list_elem_of_fmap. simpl in Ha. subst a.
    eapply Forall_forall in Hlt; [|exact Hin]. simpl in Hlt. lia.
  - apply Forall_forall. intros d Hd l.
    eapply elem_of_sublist in Hd; [|exact Hs].
    unfold deliverable_ids in Hd.
    repeat (apply elem_of_cons in Hd as [->|Hd]); [..|by apply elem_of_nil in Hd];
      vm_compute; discriminate.
Qed.

Lemma requests_step w e :
  deliverables_invariant w -> Forall request_from_form (requests w) ->
  Forall request_from_form (requests (step w e)).
Proof.
  intros Hd Hr. destruct e; simpl; try done.
  - destruct (isLoading (app w)) eqn:HL.
    { by rewrite generate_blocked by (by left). }
    destruct (decide (trim (description (app w)) = [])) as [HD|HD].
    { by rewrite generate_blocked by (by right). }
    rewrite generate_accepted by done. simpl.
    apply Forall_app. split; [done|]. constructor; [|constructor].
    repeat split. exists (description (app w)), (hdlLanguage (app w)),
      (selectedDeliverables (app w)).
    split; [done|]. split; [done|]. by apply deliverables_invariant_selected.
  - unfold generate_resume. by destruct (awaiting w).
  - unfold tick. by repeat case_match.
  - unfold toggleDeliverable. by repeat case_match.
Qed.

(** Every call to the remote model the component has made, in any state it
    can reach, names the fixed model, asks for JSON under the fixed schema, and
    carries a prompt built for a description that was not blank and for
    identifiers picked, in order, from the four known ones. *)
Theorem reachable_requests es :
  Forall request_from_form (requests (run initial_world es)).
Proof.
  assert (forall w, deliverables_invariant w -> Forall request_from_form (requests w) ->
                    Forall request_from_form (requests (run w es))) as G.
  { induction es as [|e es IH]; intros w Hd Hr; [done|].
    apply IH; [by apply deliverables_invariant_step|by apply requests_step]. }
  apply G; [apply deliverables_invariant_initial|constructor].
Qed.

Lemma toggleDeliverable_in_bounds w index a d :
  (0 <= index)%Z -> deliverables (app w) !! Z.to_nat index = Some (a, d) ->
  toggleDeliverable index w
  = Some {| app := set_deliverables
                     (<[Z.to_nat index := (next_address w,
                          {| id := id d; name := name d; checked := negb (checked d) |})]>
                        (deliverables (app w)))
                     (app w);
            intervals := intervals w;
            next_handle := next_handle w;
            next_address := Pos.succ (next_address w);
            requests := requests w;
            awaiting := awaiting w |}.
Proof.
  intros Hi Hd. unfold toggleDeliverable.
  destruct (Z.ltb_spec index 0); [lia|]. by rewrite Hd.
Qed.

(** Toggling the same index twice gives back the contents of the list, entry
    by entry, and with them the selection; the entry at the index is by then
    the second object made for it. *)
Theorem toggleDeliverable_twice w index :
  (0 <= index < Z.of_nat (length (deliverables (app w))))%Z ->
  exists w1 w2,
    toggleDeliverable index w = Some w1
    /\ toggleDeliverable index w1 = Some w2
    /\ (deliverables (app w2)).*2 = (deliverables (app w)).*2
    /\ selectedDeliverables (app w2) = selectedDeliverables (app w)
    /\ (deliverables (app w2)).*1
       = <[Z.to_nat index := Pos.succ (next_address w)]> (deliverables (app w)).*1.
Proof.
  intros Hi.
  destruct (lookup_lt_is_Some_2 (deliverables (app w)) (Z.to_nat index)) as [[a d] Hd];
    [lia|].
  assert (Z.to_nat index < length (deliverables (app w))) as Hlt by lia.
  pose proof (toggleDeliverable_in_bounds w index a d ltac:(lia) Hd) as H1.
  match type of H1 with _ = Some ?w1 =>
    pose proof (toggleDeliverable_in_bounds w1 index (next_address w)
      {| id := id d; name := name d; checked := negb (checked d) |} ltac:(lia)) as H2
  end.
  cbn [app deliverables set_deliverables next_address] in H2.
  specialize (H2 (list_lookup_insert_eq _ _ _ Hlt)).
  eexists _, _. split; [exact H1|]. split; [exact H2|].
  cbn [app deliverables set_deliverables id name checked].
  rewrite list_insert_insert_eq, negb_involutive.
  assert ((<[Z.to_nat index := (Pos.succ (next_address w),
             {| id := id d; name := name d; checked := checked d |})]>
             (deliverables (app w))).*2 = (deliverables (app w)).*2) as E.
  { rewrite list_fmap_insert. apply list_insert_id.
    rewrite list_lookup_fmap, Hd. by destruct d. }
  split; [done|]. split.
  - rewrite !selectedDeliverables_contents.
    cbn [app deliverables set_deliverables]. by rewrite E.
  - by rewrite list_fmap_insert.
Qed.

Lemma toggleDeliverable_twice_witness :
  exists w1 w2,
    toggleDeliverable 0 initial_world = Some w1
    /\ toggleDeliverable 0 w1 = Some w2
    /\ (deliverables (app w2)).*2 = (deliverables (app initial_world)).*2
    /\ selectedDeliverables (app w2) = selectedDeliverables (app initial_world)
    /\ (deliverables (app w2)).*1
       = <[Z.to_nat 0 := Pos.succ (next_address initial_world)]>
           (deliverables (app initial_world)).*1.
Proof. apply (toggleDeliverable_twice initial_world 0). simpl. lia. Defined.

End Deliverables.

(** ** The status rotation, and what is shown of a result *)

Section Rotation.

Local Arguments Nat.modulo : simpl never.
Local Arguments message : simpl never.

Lemma rotation_while_pending es : forall w h c,
  forallb (fun e => negb (is_settlement e)) es = true ->
  isLoading (app w) = true -> intervals w = [(h, c)] -> c < 6 ->
  loadingMessage (app w) = message c ->
  loadingMessage (app (run w es)) = message ((c + ticks_of h es) mod 6).
Proof.
  induction es as [|e es IH]; intros w h c Hes HL Hi Hc Hm.
  { simpl. by rewrite Nat.add_0_r, Nat.mod_small. }
  simpl in Hes. apply andb_prop in Hes as [He Hes]. apply negb_true_iff in He.
  destruct e; try discriminate; simpl.
  - rewrite generate_blocked by (by left). by apply IH.
  - unfold tick. rewrite Hi. simpl. destruct (decide (h = h0)) as [<-|Hne].
    + rewrite decide_True by done. simpl.
      rewrite (IH _ h ((c + 1) mod 6)); try done.
      * f_equal. rewrite Nat.Div0.add_mod_idemp_l. f_equal. lia.
      * by apply Nat.mod_upper_bound.
    + rewrite decide_False by congruence. simpl. by apply IH.
  - destruct (toggleDeliverable_others index w) as (E1 & _ & E3 & _).
    apply IH; try done; try congruence.
    unfold toggleDeliverable. by repeat case_match.
  - by apply IH.
  - by apply IH.
  - by apply IH.
Qed.

(** From any state the component can reach, an accepted call shows the first
    status message, and while the call is pending the message shown is the
    one the count of the firings of its own timer selects, going round the six
    messages; nothing else changes it, a firing of another handle included. *)
Theorem loadingMessage_rotates before pending :
  isLoading (app (run initial_world before)) = false ->
  trim (description (app (run initial_world before))) <> [] ->
  forallb (fun e => negb (is_settlement e)) pending = true ->
  loadingMessage (app (run (generate (run initial_world before)) pending))
  = message (ticks_of (next_handle (run initial_world before)) pending mod 6).
Proof.
  intros HL HD Hes. set (w := run initial_world before) in *.
  pose proof (rotation_invariant_run before _ rotation_invariant_initial) as Hw. fold w in Hw.
  unfold rotation_invariant in Hw. rewrite HL in Hw. destruct Hw as [_ Hi].
  rewrite (rotation_while_pending pending (generate w) (next_handle w) 0); try done.
  - by rewrite generate_accepted.
  - rewrite generate_accepted by done. simpl. by rewrite Hi.
  - lia.
  - by rewrite generate_accepted.
Qed.

Lemma loadingMessage_rotates_witness :
  loadingMessage
    (app (run (generate (run initial_world [CallToggleDeliverable 3]))
            [TimerFires 1; TimerFires 7; CallSetActiveTab (lit "x"); TimerFires 1]))
  = message
      (ticks_of (next_handle (run initial_world [CallToggleDeliverable 3]))
         [TimerFires 1; TimerFires 7; CallSetActiveTab (lit "x"); TimerFires 1] mod 6).
Proof.
  apply (loadingMessage_rotates [CallToggleDeliverable 3]
           [TimerFires 1; TimerFires 7; CallSetActiveTab (lit "x"); TimerFires 1]).
  - reflexivity.
  - vm_compute. discriminate.
  - reflexivity.
Defined.

End Rotation.

Section OutputFiles.

Lemma get_prop_app (o1 o2 : props) k :
  get_prop k (o1 ++ o2)
  = match get_prop k o1 with Some v => Some v | None => get_prop k o2 end.
Proof.
  induction o1 as [|[k' v'] o1 IH]; [done|]. simpl. by case_decide.
Qed.

Lemma get_prop_None (o : props) k : get_prop k o = None <-> k ∉ o.*1.
Proof.
  induction o as [|[k' v'] o IH]; csimpl.
  - split; [intros _; apply not_elem_of_nil|done].
  - rewrite not_elem_of_cons. case_decide; subst.
    + split; [done|]. by intros [? _].
    + rewrite IH. split; [by split|by intros [_ ?]].
Qed.

Lemma get_prop_replace_prop o k v k' :
  k ∈ o.*1 ->
  get_prop k' (replace_prop k v o) = if decide (k = k') then Some v else get_prop k' o.
Proof.
  induction o as [|[k0 v0] o IH]; csimpl; [by intros ?%elem_of_nil|].
  intros Hin. destruct (decide (k0 = k)) as [->|Hne]; simpl.
  - by repeat case_decide.
  - apply elem_of_cons in Hin as [->|Hin]; [done|].
    rewrite IH by done. repeat case_decide; congruence.
Qed.

Lemma get_prop_insert_index n o k v k' :
  k ∉ o.*1 ->
  get_prop k' (insert_index n k v o) = if decide (k = k') then Some v else get_prop k' o.
Proof.
  induction o as [|[k0 v0] o IH]; csimpl; [done|].
  intros [Hne Hnot]%not_elem_of_cons.
  repeat case_match; simpl; rewrite ?IH by done; repeat case_decide; congruence.
Qed.

(** Reading a property back after [CreateDataProperty]: the value stored under
    the key written, and what was there under any other key. *)
Lemma get_prop_set_prop o k v k' :
  get_prop k' (set_prop o k v) = if decide (k = k') then Some v else get_prop k' o.
Proof.
  unfold set_prop. destruct (has_key k o) eqn:E.
  - apply get_prop_replace_prop. by apply has_key_true.
  - apply has_key_false in E. destruct (array_index k).
    + by apply get_prop_insert_index.
    + rewrite get_prop_app. simpl. apply get_prop_None in E.
      destruct (decide (k = k')) as [<-|Hne].
      * by rewrite E.
      * by destruct (get_prop k' o).
Qed.

Lemma get_prop_spread_fold (l : props) : forall target k',
  NoDup l.*1 ->
  get_prop k' (fold_left (fun t kv => set_prop t kv.1 kv.2) l target)
  = match get_prop k' l with Some v => Some v | None => get_prop k' target end.
Proof.
  induction l as [|[k v] l IH] using rev_ind; intros target k' Hnd; [done|].
  rewrite fmap_app in Hnd. apply NoDup_app in Hnd as (Hnd & Hdisj & _).
  rewrite fold_left_app. simpl. rewrite get_prop_set_prop, get_prop_app. simpl.
  rewrite IH by done. destruct (decide (k = k')) as [<-|Hne].
  - assert (get_prop k l = None) as ->; [|done].
    apply get_prop_None. intros Hin. apply (Hdisj _ Hin). by left.
  - by destruct (get_prop k' l).
Qed.

(** The tab key of an entry of [outputFiles]: the key of the result entry,
    unless the value is an object with a property of its own named [key];
    that property is spread over it and wins. *)
Theorem outputFiles_entry_key key o :
  NoDup o.*1 ->
  get_prop (lit "key") (spread [(lit "key", VStr key)] (VObj o))
  = Some (default (VStr key) (get_prop (lit "key") o)).
Proof.
  intros Hnd. unfold spread. simpl. rewrite get_prop_spread_fold by done.
  destruct (get_prop (lit "key") o); [done|]. reflexivity.
Qed.

Lemma outputFiles_entry_key_witness :
  get_prop (lit "key")
    (spread [(lit "key", VStr (lit "rtlCode"))]
       (VObj [(lit "filename", VStr (lit "a.v")); (lit "key", VStr (lit "other"))]))
  = Some (default (VStr (lit "rtlCode"))
            (get_prop (lit "key")
               [(lit "filename", VStr (lit "a.v")); (lit "key", VStr (lit "other"))])).
Proof.
  apply (outputFiles_entry_key (lit "rtlCode")
           [(lit "filename", VStr (lit "a.v")); (lit "key", VStr (lit "other"))]).
  vm_compute. repeat constructor; intros H;
    repeat (inversion H as [|? ? ? H']; clear H; rename H' into H).
Defined.

Lemma spread_appends (o : props) : forall target,
  NoDup (target.*1 ++ o.*1) -> Forall (fun k => array_index k = None) o.*1 ->
  fold_left (fun t kv => set_prop t kv.1 kv.2) o target = target ++ o.
Proof.
  induction o as [|[k v] o IH] using rev_ind; intros target Hnd Hni.
  { by rewrite app_nil_r. }
  rewrite fmap_app in Hnd, Hni. rewrite app_assoc in Hnd.
  apply NoDup_app in Hnd as (Hnd & Hdisj & _).
  apply Forall_app in Hni as [Hni Hk]. apply Forall_cons in Hk as [Hk _].
  rewrite fold_left_app. simpl. rewrite IH by done.
  unfold set_prop. simpl in Hk. rewrite Hk.
  assert (has_key k (target ++ o) = false) as ->.
  { apply has_key_false. rewrite fmap_app. intros Hin. apply (Hdisj _ Hin). by left. }
  by rewrite app_assoc.
Qed.

(** A file record has the three fields and no other property. *)
Lemma is_HdlFile_fields v :
  is_HdlFile v = true ->
  exists o, v = VObj o
    /\ NoDup o.*1 /\ Forall (fun k => array_index k = None) o.*1
    /\ lit "key" ∉ o.*1.
Proof.
  destruct v as [| | | | |o]; try done. simpl.
  intros (((Hlen & Hf)%andb_prop & Hl)%andb_prop & Hc)%andb_prop.
  exists o. split; [done|].
  apply Nat.eqb_eq in Hlen.
  destruct o as [|[k1 v1] [|[k2 v2] [|[k3 v3] [|? ?]]]]; try discriminate.
  unfold nonempty_string_field in *. simpl in *. clear Hlen.
  repeat case_decide; subst; try discriminate;
    try (exfalso;
         match goal with
         | H : lit _ = lit _ |- _ => vm_compute in H; discriminate
         end);
    csimpl; apply (bool_decide_unpack _); vm_compute; exact I.
Qed.

(** The entry [outputFiles] makes of a file record: the tab key first, then
    the fields of the record as the reply gave them. *)
Theorem outputFiles_entry_of_file key v :
  is_HdlFile v = true ->
  spread [(lit "key", VStr key)] v = (lit "key", VStr key) :: spread_source v.
Proof.
  intros (o & -> & Hnd & Hni & Hkey)%is_HdlFile_fields.
  unfold spread. simpl. rewrite spread_appends; [done| |done].
  simpl. by constructor.
Qed.

Lemma outputFiles_entry_of_file_witness :
  spread [(lit "key", VStr (lit "rtlCode"))] sample_file
  = (lit "key", VStr (lit "rtlCode")) :: spread_source sample_file.
Proof.
  apply (outputFiles_entry_of_file (lit "rtlCode") sample_file). reflexivity.
Defined.

(** Every result the component ever stores came from [generateHdl]. *)
Lemma stored_result_step w e :
  (forall out, generatedOutput (app w) = Some out ->
     Forall (fun kv => truthy kv.2 = true) (own out)) ->
  forall out, generatedOutput (app (step w e)) = Some out ->
    Forall (fun kv => truthy kv.2 = true) (own out).
Proof.
  intros H out. destruct e; simpl; try apply H.
  - unfold generate. case_match; [apply H|done].
  - unfold generate_resume. destruct (awaiting w); [apply H|]. simpl.
    destruct (generateHdl_resume remote) as [result|err] eqn:Hr.
    + destruct (on_result_fields result (app w)) as (_ & _ & _ & _ & ->).
      intros [= <-]. apply generateHdl_resume_clean in Hr as [Hc _].
      eapply Forall_impl; [exact Hc|]. by intros kv [? _].
    + apply H.
  - unfold tick. repeat case_match; apply H.
  - unfold toggleDeliverable. repeat case_match; apply H.
Qed.

Lemma flat_map_truthy (f : jsstring * value -> props) (o : props) :
  Forall (fun kv => truthy kv.2 = true) o ->
  flat_map (fun kv => if truthy kv.2 then [f kv] else []) o = map f o.
Proof.
  induction 1 as [|kv o Hkv _ IH]; [done|]. simpl. by rewrite Hkv, IH.
Qed.

(** In every state the component can reach, [outputFiles] holds exactly one
    entry for each key of the stored result, in the order of the keys: no
    entry of a result [generateHdl] returned is dropped by the truthiness test
    of [outputFiles]. *)
Theorem outputFiles_one_per_key es out :
  generatedOutput (app (run initial_world es)) = Some out ->
  outputFiles (app (run initial_world es))
  = map (fun kv => spread [(lit "key", VStr kv.1)] kv.2) (own out)
  /\ length (outputFiles (app (run initial_world es)))
     = length (Object_keys (own out)).
Proof.
  intros Hout.
  assert (Forall (fun kv => truthy kv.2 = true) (own out)) as Ht.
  { revert out Hout.
    assert (forall w, (forall out, generatedOutput (app w) = Some out ->
                         Forall (fun kv => truthy kv.2 = true) (own out)) ->
              forall out, generatedOutput (app (run w es)) = Some out ->
                Forall (fun kv => truthy kv.2 = true) (own out)) as G.
    { induction es as [|e es IH]; intros w Hw; [done|].
      simpl. apply IH. by apply stored_result_step. }
    apply G. intros out. discriminate. }
  assert (outputFiles (app (run initial_world es))
          = map (fun kv => spread [(lit "key", VStr kv.1)] kv.2) (own out)) as E.
  { unfold outputFiles. rewrite Hout. by apply flat_map_truthy. }
  split; [done|]. rewrite E. unfold Object_keys. by rewrite length_map, length_fmap.
Qed.

Lemma outputFiles_one_per_key_witness :
  outputFiles (app (run initial_world [CallGenerate; RemoteSettles (response mixed_reply)]))
  = map (fun kv => spread [(lit "key", VStr kv.1)] kv.2)
      [(lit "rtlCode", sample_file); (lit "testbench", VBool true)]
  /\ length (outputFiles
               (app (run initial_world
                       [CallGenerate; RemoteSettles (response mixed_reply)])))
     = length (Object_keys [(lit "rtlCode", sample_file); (lit "testbench", VBool true)]).
Proof.
  apply (outputFiles_one_per_key [CallGenerate; RemoteSettles (response mixed_reply)]
           {| proto := ObjectPrototype;
              own := [(lit "rtlCode", sample_file); (lit "testbench", VBool true)] |}).
  vm_compute. reflexivity.
Defined.

End OutputFiles.

Section Edges.

Lemma buildPrompt_no_deliverables d hdl :
  occurs_at (clause_open ++ lit "." ++ [LF]) (buildPrompt d hdl [])
    (length (prompt_head ++ d ++ prompt_task ++ hdl ++ prompt_env)).
Proof.
  unfold buildPrompt. cbn [map join].
  replace (prompt_head ++ d ++ prompt_task ++ hdl ++ prompt_env
           ++ clause_open ++ [] ++ prompt_tail)
    with ((prompt_head ++ d ++ prompt_task ++ hdl ++ prompt_env)
          ++ (clause_open ++ lit "." ++ [LF]) ++ skipn 2 prompt_tail).
  - apply occurs_at_middle.
  - rewrite <- !app_assoc. do 6 f_equal.
Qed.

(** [generate] does not ask for a selection: with no deliverable checked, an
    accepted call still makes its one request, and the clause of the prompt
    lists nothing between its opening and its full stop. *)
Theorem generate_without_selection w :
  isLoading (app w) = false -> trim (description (app w)) <> [] ->
  selectedDeliverables (app w) = [] ->
  exists r,
    requests (generate w) = requests w ++ [r]
    /\ occurs_at (clause_open ++ lit "." ++ [LF]) (contents r)
         (length (prompt_head ++ description (app w) ++ prompt_task
                  ++ HdlLanguage_string (hdlLanguage (app w)) ++ prompt_env)).
Proof.
  intros HL HD Hsel. eexists. rewrite generate_accepted by done.
  cbn [requests]. split; [done|]. rewrite Hsel.
  cbn [contents generateHdl_request]. apply buildPrompt_no_deliverables.
Qed.

Lemma generate_without_selection_witness :
  exists r,
    requests (generate (run initial_world [CallToggleDeliverable 0; CallToggleDeliverable 1]))
    = requests (run initial_world [CallToggleDeliverable 0; CallToggleDeliverable 1]) ++ [r]
    /\ occurs_at (clause_open ++ lit "." ++ [LF]) (contents r)
         (length (prompt_head
                  ++ description
                       (app (run initial_world
                               [CallToggleDeliverable 0; CallToggleDeliverable 1]))
                  ++ prompt_task
                  ++ HdlLanguage_string
                       (hdlLanguage
                          (app (run initial_world
                                  [CallToggleDeliverable 0; CallToggleDeliverable 1])))
                  ++ prompt_env)).
Proof.
  apply (generate_without_selection
           (run initial_world [CallToggleDeliverable 0; CallToggleDeliverable 1])).
  - reflexivity.
  - vm_compute. discriminate.
  - vm_compute. reflexivity.
Defined.

(** A reply that is valid JSON but is [null], a boolean or a number is no
    failure: the call ends as a success with an object without properties for
    result, no error, no file to show, and the active tab left as it was. *)
Theorem primitive_reply_is_empty_success w rawText v :
  awaiting w <> 0 -> JSON_parse (trim rawText) = Some v ->
  is_primitive_reply v = true ->
  generatedOutput (app (generate_resume (response rawText) w)) = Some empty_object
  /\ outputFiles (app (generate_resume (response rawText) w)) = []
  /\ error (app (generate_resume (response rawText) w)) = error (app w)
  /\ activeTab (app (generate_resume (response rawText) w)) = activeTab (app w)
  /\ isLoading (app (generate_resume (response rawText) w)) = false.
Proof.
  intros Hn Hparse Hv. destruct (awaiting w) as [|n] eqn:E; [done|].
  rewrite (generate_resume_app _ _ _ E), (generateHdl_resume_parsed _ _ Hparse).
  assert (cleanOutput_of v = empty_object) as -> by (by destruct v).
  unfold outputFiles. done.
Qed.

Lemma primitive_reply_is_empty_success_witness :
  generatedOutput
    (app (generate_resume (response (lit " null ")) (generate world_with_result)))
  = Some empty_object
  /\ outputFiles
       (app (generate_resume (response (lit " null ")) (generate world_with_result))) = []
  /\ error (app (generate_resume (response (lit " null ")) (generate world_with_result)))
     = error (app (generate world_with_result))
  /\ activeTab (app (generate_resume (response (lit " null ")) (generate world_with_result)))
     = activeTab (app (generate world_with_result))
  /\ isLoading
       (app (generate_resume (response (lit " null ")) (generate world_with_result)))
     = false.
Proof.
  apply (primitive_reply_is_empty_success (generate world_with_result) (lit " null ") VNull).
  - vm_compute. discriminate.
  - vm_compute. reflexivity.
  - reflexivity.
Defined.

(** A successful generation replaces what was on display in full: whatever
    result or error the component showed before the call, and whatever happens
    while the call is pending, once a reply that parses has arrived the result
    is the object made from that reply alone, no error is shown, and the busy
    flag is down. *)
Theorem generate_success_replaces_result w es rawText parsedJson :
  isLoading (app w) = false -> trim (description (app w)) <> [] ->
  forallb (fun e => negb (is_settlement e)) es = true ->
  JSON_parse (trim rawText) = Some parsedJson ->
  generatedOutput (app (generate_resume (response rawText) (run (generate w) es)))
  = Some (cleanOutput_of parsedJson)
  /\ error (app (generate_resume (response rawText) (run (generate w) es))) = None
  /\ isLoading (app (generate_resume (response rawText) (run (generate w) es))) = false.
Proof.
  intros HL HD Hes Hparse.
  destruct (run_while_loading es (generate w) Hes) as (_ & _ & H3 & H4 & _).
  { by rewrite generate_accepted. }
  assert (error (app (generate w)) = None /\ awaiting (generate w) = S (awaiting w))
    as [G3 G4] by (by rewrite generate_accepted).
  rewrite G3 in H3. rewrite G4 in H4.
  rewrite (generate_resume_app _ _ _ H4), (generateHdl_resume_parsed _ _ Hparse).
  destruct (on_result_fields (cleanOutput_of parsedJson) (app (run (generate w) es)))
    as (E1 & _ & _ & _ & E5).
  cbn [generatedOutput error isLoading set_isLoading]. by rewrite E1, E5.
Qed.

Lemma generate_success_replaces_result_witness :
  generatedOutput
    (app (generate_resume (response mixed_reply)
            (run (generate world_with_result) [TimerFires 2; InputDescription []])))
  = Some (cleanOutput_of (VObj mixed_object))
  /\ error
       (app (generate_resume (response mixed_reply)
               (run (generate world_with_result) [TimerFires 2; InputDescription []])))
     = None
  /\ isLoading
       (app (generate_resume (response mixed_reply)
               (run (generate world_with_result) [TimerFires 2; InputDescription []])))
     = false.
Proof.
  apply (generate_success_replaces_result world_with_result
           [TimerFires 2; InputDescription []] mixed_reply (VObj mixed_object)).
  - reflexivity.
  - vm_compute. discriminate.
  - reflexivity.
  - vm_compute. reflexivity.
Defined.

End Edges.

Section ActiveTab.

(** When a pending call succeeds with a reply that parses to an object, the
    result stored holds the truthy entries of the reply, but for an entry named
    [__proto__], in key order, and the active tab becomes the first of their
    keys; it is left as it was when there is no such entry, and when that first
    key is the empty string. *)
Theorem generate_success_activeTab w rawText o :
  awaiting w <> 0 -> JSON_parse (trim rawText) = Some (VObj o) ->
  exists result,
    generatedOutput (app (generate_resume (response rawText) w)) = Some result
    /\ own result = filter (fun kv => kept kv) o
    /\ activeTab (app (generate_resume (response rawText) w))
       = match filter (fun kv => kept kv) o with
         | (firstKey, _) :: _ =>
             if bool_decide (firstKey = []) then activeTab (app w) else Some firstKey
         | [] => activeTab (app w)
         end.
Proof.
  intros Hn Hparse. destruct (awaiting w) as [|n] eqn:E; [done|].
  pose proof (JSON_parse_well_formed _ _ Hparse) as Hwf.
  exists (cleanOutput_of (VObj o)).
  rewrite (generate_resume_app _ _ _ E), (generateHdl_resume_parsed _ _ Hparse).
  pose proof (cleanOutput_of_own o Hwf) as Hown.
  split; [|split; [done|]].
  - cbn [generatedOutput set_isLoading].
    by destruct (on_result_fields (cleanOutput_of (VObj o)) (app w)) as (_ & _ & _ & _ & ->).
  - cbn [activeTab set_isLoading]. unfold on_result, Object_keys. rewrite Hown.
    destruct (filter (fun kv => kept kv) o) as [|[k v] rest]; [done|].
    csimpl. by case_bool_decide.
Qed.

Lemma generate_success_activeTab_witness :
  exists result,
    generatedOutput
      (app (generate_resume (response numbered_reply) (generate world_with_result)))
    = Some result
    /\ own result = filter (fun kv => kept kv) numbered_object
    /\ activeTab
         (app (generate_resume (response numbered_reply) (generate world_with_result)))
       = match filter (fun kv => kept kv) numbered_object with
         | (firstKey, _) :: _ =>
             if bool_decide (firstKey = [])
             then activeTab (app (generate world_with_result))
             else Some firstKey
         | [] => activeTab (app (generate world_with_result))
         end.
Proof.
  apply (generate_success_activeTab (generate world_with_result) numbered_reply
           numbered_object).
  - vm_compute. discriminate.
  - vm_compute. reflexivity.
Defined.

End ActiveTab.
